(** * gdstk raw cells: lazy loading, dependency queries and polygon extraction

    A shallow embedding of [src/src/rawcell.cpp] (RawCell::clear,
    RawCell::get_dependencies, RawCell::get_polygons, RawCell::to_gds and
    read_rawcells) together with the properties stated about them.

    Conventions of the embedding:
    - a byte is a [Z] between 0 and 255; a C string is the list of its bytes up
      to (not including) the terminating NUL;
    - a [RawCell*] is an address ([ptr]) into a heap [gmap ptr RawCell];
    - [Map<RawCell*>] (gdstk/map.hpp, not among the sources) is a
      [gmap cstring ptr]: [get] is the lookup, with [None] for NULL, [set]
      inserts or overwrites, and the items are enumerated by [map_to_list];
    - [Array<RawCell*>] (gdstk/array.hpp, not among the sources) is a list:
      [count] is its length, [append] adds at the end, [contains] is
      membership and [remove_unordered] is spelled out below;
    - recursion whose termination the source does not guarantee is bounded by
      a [fuel] argument, and running out of it is the outcome [OutOfFuel];
    - undefined behaviour of the source (dereferencing a dangling, null or
      mistyped pointer, reading indeterminate memory, overflowing a signed
      integer, releasing an allocation twice) is the outcome [Fault]; apart
      from the names the teardown of [read_rawcells] releases, allocation and
      release of memory are not tracked. *)

From Stdlib Require Import ZArith Lia Bool List Sorted Floats Uint63 Ascii String.
From stdpp Require Import base option list gmap.

Local Open Scope Z_scope.

(** ** Outcomes of a run *)

Inductive Res (A : Type) : Type :=
| Done (a : A)
| OutOfFuel
| Fault.
Arguments Done {A} a.
Arguments OutOfFuel {A}.
Arguments Fault {A}.

Definition res_bind {A B} (r : Res A) (k : A → Res B) : Res B :=
  match r with
  | Done a => k a
  | OutOfFuel => OutOfFuel
  | Fault => Fault
  end.

Definition res_map {A B} (f : A → B) (r : Res A) : Res B :=
  match r with
  | Done a => Done (f a)
  | OutOfFuel => OutOfFuel
  | Fault => Fault
  end.

Notation "'let*' x ':=' r 'in' k" := (res_bind r (λ x, k))
  (at level 10, x pattern, r at level 100, k at level 200, only parsing).

Definition is_done {A} (r : Res A) : bool :=
  match r with Done _ => true | _ => false end.

(** ** Data model *)

Definition ptr := nat.
Definition cstring := list Z.

(** gdstk's ErrorCode, restricted to the codes this file can produce. *)
Inductive ErrorCode :=
| NoError
| MissingReference
| InputFileOpenError
| InputFileError
| InvalidFile.

Global Instance ErrorCode_eq_dec : EqDecision ErrorCode.
Proof. solve_decision. Defined.

(** One entry of [Array<RawCell*> dependencies].  The source stores the name
    of a not yet resolved reference in the slot itself, cast to [RawCell*];
    the tag records which of the two the slot currently holds. *)
Inductive Slot :=
| Unresolved (name : cstring)
| Resolved (cell : ptr).

Global Instance Slot_eq_dec : EqDecision Slot.
Proof. solve_decision. Defined.

(** struct RawCell.  [rc_data] and [rc_offset] share storage in the source (a
    union): [rc_offset] is meaningful while [rc_source] is set and [rc_data]
    otherwise. *)
Record RawCell := mkRawCell {
  rc_name : option cstring;
  rc_source : option nat;
  rc_offset : Z;
  rc_data : option (list Z);
  rc_size : Z;
  rc_dependencies : list Slot;
  rc_filename : cstring
}.

(** ** RawCell::get_dependencies *)

Section GetDependenciesLoop.
Variable h : gmap ptr RawCell.
Variable recursive : bool.
(** [rawcell->get_dependencies(true, result)] *)
Variable recurse : ptr → gmap cstring ptr → Res (gmap cstring ptr).

Fixpoint get_dependencies_loop (items : list Slot) (result : gmap cstring ptr)
  : Res (gmap cstring ptr) :=
  match items with
  | [] => Done result
  | Unresolved _ :: _ => Fault
  | Resolved rawcell :: items' =>
    match h !! rawcell with
    | None => Fault
    | Some rc =>
      match rc_name rc with
      | None => Fault
      | Some nm =>
        let* result' :=
          (if recursive && negb (bool_decide (result !! nm = Some rawcell))
           then recurse rawcell result
           else Done result) in
        get_dependencies_loop items' (<[nm := rawcell]> result')
      end
    end
  end.
End GetDependenciesLoop.

Fixpoint get_dependencies (fuel : nat) (h : gmap ptr RawCell) (recursive : bool)
    (self : ptr) (result : gmap cstring ptr) : Res (gmap cstring ptr) :=
  match fuel with
  | O => OutOfFuel
  | S fuel' =>
    match h !! self with
    | None => Fault
    | Some c =>
      get_dependencies_loop h recursive (get_dependencies fuel' h true)
        (rc_dependencies c) result
    end
  end.

(** ** The diagnostic sink and the error-code out-parameter *)

(** The lines the source writes to [error_logger]. *)
Inductive Diagnostic :=
| UnableToOpenInput
| UnableToReadRawCellData
| ReferencedCellNotFound (name : cstring)
| InvalidGdsiiFile (filename : cstring).

(** [error_logger] is a global [FILE*]: [None] when it is NULL, otherwise the
    lines written so far. *)
Definition Sink := option (list Diagnostic).

(** [if (error_logger) fputs(line, error_logger);] *)
Definition emit (sink : Sink) (line : Diagnostic) : Sink :=
  match sink with
  | Some lines => Some (lines ++ [line])
  | None => None
  end.

(** [if (error_code) *error_code = err;] where [None] is a NULL pointer. *)
Definition set_error_code (error_code : option ErrorCode) (err : ErrorCode)
  : option ErrorCode :=
  match error_code with
  | Some _ => Some err
  | None => None
  end.

(** ** Bytes, C strings and the record buffer *)

(** The bytes of a C string stored at the head of [bytes]. *)
Fixpoint until_nul (bytes : list Z) : cstring :=
  match bytes with
  | [] => []
  | b :: bytes' => if b =? 0 then [] else b :: until_nul bytes'
  end.

(** The record buffer [uint8_t buffer[65537]] is a local array the source never
    initialises: the model keeps the bytes written so far, and reading a C
    string that no NUL terminates inside them is reading indeterminate
    memory ([None]). *)
Definition str_at (bytes : list Z) : option cstring :=
  if existsb (Z.eqb 0) bytes then Some (until_nul bytes) else None.

(** [strncmp(s1, s2, n) == 0]; [s2] carries its terminating NUL, and [s1] is
    the payload of the record just read, which holds at least [n] bytes. *)
Fixpoint strncmp_eq (s1 s2 : list Z) (n : nat) : bool :=
  match n with
  | O => true
  | S n' =>
    match s1, s2 with
    | c1 :: t1, c2 :: t2 =>
      if c1 =? c2 then (if c1 =? 0 then true else strncmp_eq t1 t2 n') else false
    | _, _ => false
    end
  end.

(** Little-endian value of a word in host memory. *)
Definition le_uint (bytes : list Z) : Z :=
  foldr (λ b acc, b + 256 * acc) 0 bytes.

Definition to_int32 (v : Z) : Z :=
  if v <? 2 ^ 31 then v else v - 2 ^ 32.

(** The [i]-th [w]-byte word of the payload area [buffer + 4]. *)
Definition read_word (w : nat) (buffer : list Z) (i : Z) : option Z :=
  let bytes := take w (drop (4 + w * Z.to_nat i) buffer) in
  if (0 <=? i) && (length bytes =? w)%nat then Some (le_uint bytes) else None.

Definition data32 (buffer : list Z) (i : Z) : option Z :=
  to_int32 <$> read_word 4 buffer i.

Definition data64 (buffer : list Z) (i : Z) : option Z :=
  read_word 8 buffer i.

(** [big_endian_swap16/32/64] on a little-endian host: reverse the bytes of
    each of the first [count] words of [w] bytes. *)
Fixpoint swap_words (w count : nat) (bytes : list Z) : list Z :=
  match count with
  | O => bytes
  | S count' => rev (take w bytes) ++ swap_words w count' (drop w bytes)
  end.

(** Modelled from the spec: gdsii_read_record (gdstk/gdsii.hpp) is not among
    the sources.  A record is a 2-byte big-endian length (header included), a
    record-type tag, an element-type tag and [length - 4] payload bytes; it is
    read into the caller's buffer, whose bytes past the record keep what
    earlier records left there.  Fewer bytes than declared is a read error, a
    declared length below 4 a framing error.  Returns the buffer, the record
    length and the rest of the stream. *)
Definition gdsii_read_record (input buffer : list Z)
  : ErrorCode + (list Z * Z * list Z) :=
  match input with
  | b0 :: b1 :: b2 :: b3 :: rest =>
    let record_length := 256 * b0 + b1 in
    if record_length <? 4 then inl InvalidFile
    else
      let n := Z.to_nat (record_length - 4) in
      let payload := take n rest in
      if (length payload <? n)%nat then inl InputFileError
      else inr ([b0; b1; b2; b3] ++ payload ++ drop (4 + n) buffer,
                record_length, drop n rest)
  | _ => inl InputFileError
  end.

(** enum GdsiiRecord (gdstk/gdsii.hpp) is not among the sources: the value of
    a record type is the position of its name in [gdsii_record_names]
    (get_polygons), which agrees with the literals of read_rawcells' switch.
    Only the record types the two switches name are kept apart. *)
Inductive GdsiiRecord :=
| LIBNAME | UNITS | ENDLIB | BGNSTR | STRNAME | ENDSTR | BOUNDARY | SREF | AREF
| XY | ENDEL | SNAME | BOX
| OtherRecord.

Definition gdsii_record (tag : Z) : GdsiiRecord :=
  match tag with
  | 2 => LIBNAME
  | 3 => UNITS
  | 4 => ENDLIB
  | 5 => BGNSTR
  | 6 => STRNAME
  | 7 => ENDSTR
  | 8 => BOUNDARY
  | 10 => SREF
  | 11 => AREF
  | 16 => XY
  | 17 => ENDEL
  | 18 => SNAME
  | 45 => BOX
  | _ => OtherRecord
  end.

(** Modelled from the spec: enum GdsiiDataType (gdstk/gdsii.hpp) is not among
    the sources; the element-type tag selects the element width (1, 2, 4 or 8
    bytes), with the tags of the GDSII stream format. *)
Inductive GdsiiDataType :=
| NoData | BitArray | TwoByteSignedInteger | FourByteSignedInteger
| FourByteReal | EightByteReal | AsciiString | OtherDataType.

Definition gdsii_data_type (tag : Z) : GdsiiDataType :=
  match tag with
  | 0 => NoData
  | 1 => BitArray
  | 2 => TwoByteSignedInteger
  | 3 => FourByteSignedInteger
  | 4 => FourByteReal
  | 5 => EightByteReal
  | 6 => AsciiString
  | _ => OtherDataType
  end.

(** The first switch of the scan: [data_length] and the payload swapped to
    host order in place. *)
Definition swap_payload (buffer : list Z) (record_length : Z) : Z * list Z :=
  let swapped w :=
    let data_length := (record_length - 4) / Z.of_nat w in
    (data_length,
     take 4 buffer ++ swap_words w (Z.to_nat data_length) (drop 4 buffer)) in
  match gdsii_data_type (default 0 (buffer !! 3%nat)) with
  | BitArray | TwoByteSignedInteger => swapped 2%nat
  | FourByteSignedInteger | FourByteReal => swapped 4%nat
  | EightByteReal => swapped 8%nat
  | _ => (record_length - 4, buffer)
  end.

(** ** Doubles *)

(** [(double)v] for a 32-bit integer [v]. *)
Definition double_of_int32 (v : Z) : float :=
  if v <? 0 then PrimFloat.opp (PrimFloat.of_uint63 (Uint63.of_Z (- v)))
  else PrimFloat.of_uint63 (Uint63.of_Z v).

(** [(int32_t)f]: truncation toward zero; undefined ([None]) for NaN, the
    infinities and values outside the 32-bit range. *)
Definition double_to_int32 (f : float) : option Z :=
  match Prim2SF f with
  | S754_zero _ => Some 0
  | S754_finite s m e =>
    let magnitude := if 0 <=? e then Z.pos m * 2 ^ e else Z.pos m / 2 ^ (- e) in
    let v := if s then - magnitude else magnitude in
    if (- 2 ^ 31 <=? v) && (v <? 2 ^ 31) then Some v else None
  | _ => None
  end.

(** [int32_t x = factor * data32[i];] *)
Definition scale (factor : float) (v : Z) : option Z :=
  double_to_int32 (PrimFloat.mul factor (double_of_int32 v)).

(** ** RawCell::get_polygons *)

(** What the source prints on [std::cout]. *)
Inductive Event :=
| TargetCellFound (name : cstring)
| DependencyName (name : cstring) (start_id : Z)
| FoundPolygon (start_id : Z).

(** The objects one extraction shares with the extractions it starts:
    [int& start_id], [ErrorCode* error_code], the output vector and standard
    output.  [calls] is a ghost log of the entity and depth argument of every
    invocation of get_polygons, in order. *)
Record Extraction := mkExtraction {
  start_id : Z;
  error_code : option ErrorCode;
  polygons : list (Z * Z * Z);
  stdout : list Event;
  calls : list (ptr * Z)
}.

(** The locals of one scan. *)
Record Scan := mkScan {
  input : list Z;
  buffer : list Z;
  factor : float;
  tolerance : float;
  target_cell_found : bool;
  found_polygon : bool
}.

(** [for (uint64_t i = 0; i < data_length; i += 4)] of the XY case; [bound]
    only makes the recursion structural. *)
Fixpoint xy_loop (bound : nat) (buffer : list Z) (factor : float)
    (data_length i id : Z) (polygons : list (Z * Z * Z))
  : Res (list (Z * Z * Z)) :=
  if i <? data_length then
    match bound with
    | O => OutOfFuel
    | S bound' =>
      match data32 buffer i, data32 buffer (i + 1) with
      | Some vx, Some vy =>
        match scale factor vx, scale factor vy with
        | Some x, Some y =>
          xy_loop bound' buffer factor data_length (i + 4) id
                  (polygons ++ [(x, y, id)])
        | _, _ => Fault
        end
      | _, _ => Fault
      end
    end
  else Done polygons.

Section GetPolygons.
(** gdsii_real_to_double (gdstk/gdsii.hpp) is not among the sources. *)
Variable gdsii_real_to_double : Z → float.
(** The files [fopen] can open, by name. *)
Variable fs : gmap cstring (list Z).
Variable h : gmap ptr RawCell.

Section ScanLoop.
Variable fuel : nat.
Variable self : ptr.
Variable name : option cstring.
Variable depth : Z.
Variable unit : float.
(** [ref->get_polygons(start_id, -1, unit, tolerance, error_code, polygons)] *)
Variable recurse : ptr → float → Extraction * Sink → Res (Extraction * Sink).

Fixpoint scan_loop (n : nat) (s : Scan) (xs : Extraction * Sink)
  : Res (Extraction * Sink) :=
  match n with
  | O => OutOfFuel
  | S n' =>
    let '(x, sink) := xs in
    match gdsii_read_record (input s) (buffer s) with
    | inl err =>
      Done (mkExtraction (start_id x) (set_error_code (error_code x) err)
              (polygons x) (stdout x) (calls x), sink)
    | inr (buffer0, record_length, rest) =>
      let '(data_length, buf) := swap_payload buffer0 record_length in
      let s := mkScan rest buf (factor s) (tolerance s)
                 (target_cell_found s) (found_polygon s) in
      match gdsii_record (default 0 (buf !! 2%nat)) with
      | UNITS =>
        match data64 buf 0, data64 buf 1 with
        | Some d0, Some d1 =>
          let db_in_user := gdsii_real_to_double d0 in
          let db_in_meters := gdsii_real_to_double d1 in
          let factor' :=
            if PrimFloat.ltb 0 unit then PrimFloat.div db_in_meters unit
            else db_in_user in
          let tolerance' :=
            if PrimFloat.leb (tolerance s) 0
            then PrimFloat.div db_in_meters factor'
            else tolerance s in
          scan_loop n' (mkScan rest buf factor' tolerance'
                          (target_cell_found s) (found_polygon s)) xs
        | _, _ => Fault
        end
      | LIBNAME =>
        (* [if (str[data_length - 1] == 0) data_length--;]: only the
           local data_length changes, and nothing reads it afterwards *)
        scan_loop n' s xs
      | ENDLIB => Done xs
      | STRNAME =>
        match name with
        | None => Fault
        | Some nm =>
          if strncmp_eq (drop 4 buf) (nm ++ [0]) (Z.to_nat data_length)
          then scan_loop n' (mkScan rest buf (factor s) (tolerance s)
                               true (found_polygon s))
                 (mkExtraction (start_id x) (error_code x) (polygons x)
                    (stdout x ++ [TargetCellFound nm]) (calls x), sink)
          else scan_loop n' s xs
        end
      | SREF | AREF =>
        if target_cell_found s && negb (depth =? 0) then
          let* dependency_map := get_dependencies fuel h true self ∅ in
          match str_at (drop 4 buf) with
          | None => Fault
          | Some str =>
            match dependency_map !! str with
            | None => scan_loop n' s xs
            | Some ref =>
              match h !! ref with
              | None => Fault
              | Some rc =>
                let x' := mkExtraction (start_id x) (error_code x) (polygons x)
                            (stdout x ++ [DependencyName (default [] (rc_name rc))
                                            (start_id x)])
                            (calls x) in
                let* xs' := recurse ref (tolerance s) (x', sink) in
                scan_loop n' s xs'
              end
            end
          end
        else scan_loop n' s xs
      | BOUNDARY | BOX =>
        if target_cell_found s
        then scan_loop n' (mkScan rest buf (factor s) (tolerance s) true true)
               (mkExtraction (start_id x) (error_code x) (polygons x)
                  (stdout x ++ [FoundPolygon (start_id x)]) (calls x), sink)
        else scan_loop n' s xs
      | XY =>
        if found_polygon s then
          let* polygons' :=
            xy_loop (S (Z.to_nat data_length)) buf (factor s) data_length 0
                    (start_id x) (polygons x) in
          (* [start_id++] on an [int]: past INT_MAX the increment is a signed
             overflow, undefined behaviour *)
          if start_id x <? 2 ^ 31 - 1
          then scan_loop n' s
                 (mkExtraction (start_id x + 1) (error_code x) polygons'
                    (stdout x) (calls x), sink)
          else Fault
        else scan_loop n' s xs
      | ENDEL =>
        if target_cell_found s
        then scan_loop n' (mkScan rest buf (factor s) (tolerance s) true false) xs
        else scan_loop n' s xs
      | _ => scan_loop n' s xs
      end
    end
  end.
End ScanLoop.

Fixpoint get_polygons (fuel : nat) (self : ptr) (depth : Z)
    (unit tolerance : float) (xs : Extraction * Sink)
  : Res (Extraction * Sink) :=
  match fuel with
  | O => OutOfFuel
  | S fuel' =>
    match h !! self with
    | None => Fault
    | Some c =>
      let '(x, sink) := xs in
      let x := mkExtraction (start_id x) (error_code x) (polygons x) (stdout x)
                 (calls x ++ [(self, depth)]) in
      match fs !! rc_filename c with
      | None =>
        Done (mkExtraction (start_id x)
                (set_error_code (error_code x) InputFileOpenError)
                (polygons x) (stdout x) (calls x),
              emit sink UnableToOpenInput)
      | Some bytes =>
        scan_loop fuel' self (rc_name c) depth unit
          (λ ref tol, get_polygons fuel' ref (-1) unit tol)
          (S (length bytes))
          (mkScan bytes [] 1%float tolerance false false)
          (x, sink)
      end
    end
  end.
End GetPolygons.

(** ** Shared sources, RawCell::clear and RawCell::to_gds *)

(** struct RawSource: the open file and its use count.  A source that was
    closed and freed is absent from the store. *)
Record RawSource := mkRawSource {
  src_contents : list Z;
  src_uses : Z
}.

(** The entities and the shared sources that are alive. *)
Record World := mkWorld {
  heap : gmap ptr RawCell;
  sources : gmap nat RawSource
}.

(** [source->uses--; if (source->uses == 0) { fclose(source->file);
    free_allocation(source); }] with [uses] a [uint64_t]. *)
Definition release_source (sources : gmap nat RawSource) (s : nat)
  : Res (gmap nat RawSource) :=
  match sources !! s with
  | None => Fault
  | Some src =>
    let uses := (src_uses src - 1) mod 2 ^ 64 in
    if uses =? 0 then Done (delete s sources)
    else Done (<[s := mkRawSource (src_contents src) uses]> sources)
  end.

(** RawCell::clear: the name is freed, the source is released (and [offset]
    zeroed) or else the owned buffer is freed, the size is zeroed and the
    dependency list emptied. *)
Definition clear (w : World) (self : ptr) : Res World :=
  match heap w !! self with
  | None => Fault
  | Some c =>
    match rc_source c with
    | Some s =>
      let* sources' := release_source (sources w) s in
      Done (mkWorld (<[self := mkRawCell None None 0 None 0 [] (rc_filename c)]> (heap w))
              sources')
    | None =>
      Done (mkWorld
              (<[self := mkRawCell None None (rc_offset c) None 0 [] (rc_filename c)]> (heap w))
              (sources w))
    end
  end.

(** Modelled from the spec: RawSource::offset_read (gdstk/rawcell.hpp) is not
    among the sources; a positioned read of [count] bytes at the absolute
    offset [off], returning the bytes read (fewer when the file is shorter). *)
Definition offset_read (src : RawSource) (count off : Z) : list Z :=
  take (Z.to_nat count) (drop (Z.to_nat off) (src_contents src)).

(** [fwrite(data, 1, size, out)]: reading past the end of [data] is a fault. *)
Definition fwrite (data : option (list Z)) (size : Z) (out : list Z) : Res (list Z) :=
  if size =? 0 then Done out
  else
    match data with
    | None => Fault
    | Some bytes =>
      if (Z.to_nat size <=? length bytes)%nat
      then Done (out ++ take (Z.to_nat size) bytes)
      else Fault
    end.

(** RawCell::to_gds: an entity that still refers to its source is
    materialized first ([size] bytes are read at [offset]; a short read is
    reported and zeroes the size) and the source is released; then [size]
    bytes of [data] are written to [out]. *)
Definition to_gds (w : World) (self : ptr) (out : list Z) (sink : Sink)
  : Res (ErrorCode * World * list Z * Sink) :=
  match heap w !! self with
  | None => Fault
  | Some c =>
    match rc_source c with
    | Some s =>
      match sources w !! s with
      | None => Fault
      | Some src =>
        let data := offset_read src (rc_size c) (rc_offset c) in
        let result := Z.of_nat (length data) in
        let failed := negb (result =? rc_size c) in
        let sink' := if failed then emit sink UnableToReadRawCellData else sink in
        let error_code := if failed then InputFileError else NoError in
        let size := if failed then 0 else rc_size c in
        let* sources' := release_source (sources w) s in
        let c' := mkRawCell (rc_name c) None (rc_offset c) (Some data) size
                    (rc_dependencies c) (rc_filename c) in
        let* out' := fwrite (Some data) size out in
        Done (error_code, mkWorld (<[self := c']> (heap w)) sources', out', sink')
      end
    | None =>
      let* out' := fwrite (rc_data c) (rc_size c) out in
      Done (NoError, w, out', sink)
    end
  end.

(** ** read_rawcells *)

(** [items[index] = items[--count];] *)
Definition remove_unordered {A} (index : nat) (items : list A) : list A :=
  match last items with
  | Some x => take (length items - 1) (<[index := x]> items)
  | None => items
  end.

(** The dependency loop of the ENDLIB case for one entity; [bound] only makes
    the recursion structural. *)
Fixpoint resolve_loop (bound : nat) (result : gmap cstring ptr)
    (dependencies : list Slot) (i : nat) (error_code : option ErrorCode)
    (sink : Sink) : Res (list Slot * option ErrorCode * Sink) :=
  match dependencies !! i with
  | None => Done (dependencies, error_code, sink)
  | Some slot =>
    match bound with
    | O => OutOfFuel
    | S bound' =>
      match slot with
      | Resolved _ => Fault
      | Unresolved name =>
        match result !! name with
        | Some rawcell =>
          if bool_decide (Resolved rawcell ∈ dependencies)
          then resolve_loop bound' result (remove_unordered i dependencies) i
                 error_code sink
          else resolve_loop bound' result (<[i := Resolved rawcell]> dependencies)
                 (S i) error_code sink
        | None =>
          resolve_loop bound' result (remove_unordered i dependencies) i
            (set_error_code error_code MissingReference)
            (emit sink (ReferencedCellNotFound name))
        end
      end
    end
  end.

(** The body of the ENDLIB case's loop over the items of [result]. *)
Definition resolve_item (result : gmap cstring ptr)
    (acc : Res (gmap ptr RawCell * option ErrorCode * Sink)) (item : cstring * ptr)
  : Res (gmap ptr RawCell * option ErrorCode * Sink) :=
  let* (h, error_code, sink) := acc in
  match h !! item.2 with
  | None => Fault
  | Some c =>
    let* (dependencies, error_code', sink') :=
      resolve_loop (length (rc_dependencies c)) result (rc_dependencies c) 0
        error_code sink in
    Done (<[item.2 := mkRawCell (rc_name c) (rc_source c) (rc_offset c) (rc_data c)
                        (rc_size c) dependencies (rc_filename c)]> h,
          error_code', sink')
  end.

(** The name a STRNAME or SNAME record carries: [data_length] is the payload
    length, less one when the last byte is NUL; the copy is NUL-terminated.
    [str[data_length - 1]] with an empty payload is out of bounds. *)
Definition record_name (buffer : list Z) (record_length : Z) : option cstring :=
  let data_length := Z.to_nat (record_length - 4) in
  match data_length with
  | O => None
  | S k =>
    let data_length' :=
      if default 1 (buffer !! (4 + k)%nat) =? 0 then k else data_length in
    Some (until_nul (take data_length' (drop 4 buffer)))
  end.

(** The locals of the record loop: the map being built, the entities created,
    [source->uses] and the entity currently open. *)
Record Load := mkLoad {
  ld_result : gmap cstring ptr;
  ld_heap : gmap ptr RawCell;
  ld_next : ptr;
  ld_uses : Z;
  ld_rawcell : option ptr
}.

Inductive LoopExit :=
| ReachedEndlib (l : Load)
| ReadFailed (err : ErrorCode) (l : Load).

Definition add_size (h : gmap ptr RawCell) (p : ptr) (record_length : Z)
  : gmap ptr RawCell :=
  alter (λ c, mkRawCell (rc_name c) (rc_source c) (rc_offset c) (rc_data c)
                (rc_size c + record_length) (rc_dependencies c) (rc_filename c)) p h.

(** [rawcell->filename = std::string(filename)] of the BGNSTR case.  The
    entity comes from allocate_clear and is never constructed, so its
    [std::string] member is all zero bytes and assigning to it is undefined
    behaviour.  As the string of libstdc++ behaves: a name of at most 15 bytes
    lives in the local buffer of the temporary and is copied through the
    member's data pointer, which is null (a fault); a longer name lives on the
    heap and the member takes the buffer over. *)
Definition assign_filename (filename : cstring) : Res cstring :=
  if (length filename <=? 15)%nat then Fault else Done filename.

(** The [while (true)] loop of read_rawcells up to its [break] or to the
    ENDLIB record; [pos] is the position the next record is read at. *)
Fixpoint read_loop (n : nat) (filename : cstring) (source : nat)
    (input : list Z) (pos : Z) (buffer : list Z) (l : Load) : Res LoopExit :=
  match n with
  | O => OutOfFuel
  | S n' =>
    match gdsii_read_record input buffer with
    | inl err => Done (ReadFailed err l)
    | inr (buf, record_length, rest) =>
      let pos' := pos + record_length in
      match gdsii_record (default 0 (buf !! 2%nat)) with
      | ENDLIB => Done (ReachedEndlib l)
      | BGNSTR =>
        let rawcell := ld_next l in
        let* stored := assign_filename filename in
        read_loop n' filename source rest pos' buf
          (mkLoad (ld_result l)
             (<[rawcell := mkRawCell None (Some source) (pos' - record_length) None
                             record_length [] stored]> (ld_heap l))
             (S rawcell) ((ld_uses l + 1) mod 2 ^ 64) (Some rawcell))
      | STRNAME =>
        match ld_rawcell l with
        | Some rawcell =>
          match record_name buf record_length with
          | None => Fault
          | Some nm =>
            let h := alter (λ c, mkRawCell (Some nm) (rc_source c) (rc_offset c)
                                   (rc_data c) (rc_size c) (rc_dependencies c)
                                   (rc_filename c)) rawcell (ld_heap l) in
            read_loop n' filename source rest pos' buf
              (mkLoad (<[nm := rawcell]> (ld_result l))
                 (add_size h rawcell record_length)
                 (ld_next l) (ld_uses l) (ld_rawcell l))
          end
        | None => read_loop n' filename source rest pos' buf l
        end
      | ENDSTR =>
        match ld_rawcell l with
        | Some rawcell =>
          read_loop n' filename source rest pos' buf
            (mkLoad (ld_result l) (add_size (ld_heap l) rawcell record_length)
               (ld_next l) (ld_uses l) None)
        | None => read_loop n' filename source rest pos' buf l
        end
      | SNAME =>
        match ld_rawcell l with
        | Some rawcell =>
          match record_name buf record_length with
          | None => Fault
          | Some nm =>
            let h := alter (λ c, mkRawCell (rc_name c) (rc_source c) (rc_offset c)
                                   (rc_data c) (rc_size c)
                                   (rc_dependencies c ++ [Unresolved nm])
                                   (rc_filename c)) rawcell (ld_heap l) in
            read_loop n' filename source rest pos' buf
              (mkLoad (ld_result l) (add_size h rawcell record_length)
                 (ld_next l) (ld_uses l) (ld_rawcell l))
          end
        | None => read_loop n' filename source rest pos' buf l
        end
      | _ =>
        match ld_rawcell l with
        | Some rawcell =>
          read_loop n' filename source rest pos' buf
            (mkLoad (ld_result l) (add_size (ld_heap l) rawcell record_length)
               (ld_next l) (ld_uses l) (ld_rawcell l))
        | None => read_loop n' filename source rest pos' buf l
        end
      end
    end
  end.

(** The inner loop of the teardown: [for (uint64_t i = 0; i <
    dependencies->count;) { name = slot i of dependencies;
    free_allocation(name); }].  Neither [i] nor the count changes in its
    body, so the turn after a name was freed frees it again.  [freed] holds
    the slots whose name was released; releasing one of them again is a
    double free. *)
Fixpoint free_names_loop (fuel : nat) (dependencies : list Slot) (i : nat)
    (freed : list nat) : Res unit :=
  match dependencies !! i with
  | None => Done tt
  | Some slot =>
    match fuel with
    | O => OutOfFuel
    | S fuel' =>
      match slot with
      | Resolved _ => Fault
      | Unresolved _ =>
        if bool_decide (i ∈ freed) then Fault
        else free_names_loop fuel' dependencies i (i :: freed)
      end
    end
  end.

(** The body of the teardown's loop over the items of [result]. *)
Definition teardown_item (fuel : nat) (acc : Res World) (item : cstring * ptr)
  : Res World :=
  let* w := acc in
  match heap w !! item.2 with
  | None => Fault
  | Some c =>
    let* released := free_names_loop fuel (rc_dependencies c) 0 [] in
    clear w item.2
  end.

(** What read_rawcells hands back: the map, the entities it created with the
    shared source, and [*error_code]. *)
Record Loaded := mkLoaded {
  ld_map : gmap cstring ptr;
  ld_world : World;
  ld_error_code : option ErrorCode
}.

Definition read_rawcells (fuel : nat) (fs : gmap cstring (list Z))
    (filename : cstring) (error_code : option ErrorCode) (sink : Sink)
  : Res (Loaded * Sink) :=
  let source := 0%nat in
  match fs !! filename with
  | None =>
    Done (mkLoaded ∅ (mkWorld ∅ ∅) (set_error_code error_code InputFileOpenError),
          emit sink UnableToOpenInput)
  | Some bytes =>
    let* exit := read_loop (S (length bytes)) filename source bytes 0 []
                   (mkLoad ∅ ∅ 0%nat 0 None) in
    match exit with
    | ReachedEndlib l =>
      let* (h, error_code', sink') :=
        foldl (resolve_item (ld_result l)) (Done (ld_heap l, error_code, sink))
          (map_to_list (ld_result l)) in
      let sources :=
        if ld_uses l =? 0 then ∅ else {[source := mkRawSource bytes (ld_uses l)]} in
      Done (mkLoaded (ld_result l) (mkWorld h sources) error_code', sink')
    | ReadFailed err l =>
      let error_code := set_error_code error_code err in
      let uses := (ld_uses l + 1) mod 2 ^ 64 in
      let* w :=
        foldl (teardown_item fuel)
          (Done (mkWorld (ld_heap l) {[source := mkRawSource bytes uses]}))
          (map_to_list (ld_result l)) in
      Done (mkLoaded ∅ (mkWorld (heap w) (delete source (sources w)))
              (set_error_code error_code InvalidFile),
            emit sink (InvalidGdsiiFile filename))
    end
  end.

(** ** Writing GDSII streams *)

(** A record as it is serialized: length, record tag, element tag, payload. *)
Definition record (tag dtype : Z) (payload : list Z) : list Z :=
  let len := 4 + Z.of_nat (length payload) in
  [len / 256; len mod 256; tag; dtype] ++ payload.

Definition ascii (s : String.string) : list Z :=
  map (λ a, Z.of_N (Ascii.N_of_ascii a)) (String.list_ascii_of_string s).
Arguments ascii s%_string.

(** A name padded with a NUL to even length. *)
Definition padded (name : list Z) : list Z :=
  if Nat.even (length name) then name else name ++ [0].

Definition be16 (v : Z) : list Z :=
  let u := v mod 2 ^ 16 in [u / 256; u mod 256].

Definition be32 (v : Z) : list Z :=
  let u := v mod 2 ^ 32 in
  [u / 2 ^ 24; (u / 2 ^ 16) mod 256; (u / 2 ^ 8) mod 256; u mod 256].

Definition r_STRNAME (name : list Z) : list Z := record 6 6 (padded name).
Definition r_SNAME (name : list Z) : list Z := record 18 6 (padded name).
Definition r_ENDSTR : list Z := record 7 0 [].
Definition r_ENDLIB : list Z := record 4 0 [].

(** A record inside a structure, or before the first one: an SNAME record
    naming a referenced structure, or any record that neither opens, names or
    closes a structure nor ends the library. *)
Inductive Element :=
| Reference (name : cstring)
| Plain (tag dtype : Z) (payload : list Z).

Definition plain_tag (tag : Z) : bool :=
  match gdsii_record tag with
  | ENDLIB | BGNSTR | STRNAME | ENDSTR | SNAME => false
  | _ => true
  end.

(** Structure names are not empty and hold no NUL. *)
Definition valid_name (name : cstring) : bool :=
  negb (bool_decide (name = [])) && forallb (λ b, negb (b =? 0)) name.

Definition valid_element (e : Element) : bool :=
  match e with
  | Reference name => valid_name name
  | Plain tag _ _ => plain_tag tag
  end.

(** One structure: the payload of its BGNSTR record (time stamps), its name
    and its records up to ENDSTR. *)
Record StructureDef := mkStructureDef {
  sd_begin : list Z;
  sd_name : cstring;
  sd_body : list Element
}.

Definition valid_structure (s : StructureDef) : bool :=
  valid_name (sd_name s) && forallb valid_element (sd_body s).

Definition write_element (e : Element) : list Z :=
  match e with
  | Reference name => r_SNAME name
  | Plain tag dtype payload => record tag dtype payload
  end.

Definition write_structure (s : StructureDef) : list Z :=
  record 5 2 (sd_begin s) ++ r_STRNAME (sd_name s)
  ++ concat (map write_element (sd_body s)) ++ r_ENDSTR.

(** A library: the records before the first structure, the structures and the
    ENDLIB record. *)
Definition write_library (prelude : list Element) (structures : list StructureDef)
  : list Z :=
  concat (map write_element prelude) ++ concat (map write_structure structures)
  ++ r_ENDLIB.

(** A well-formed file: every record is framed as [record] frames it, every
    structure is opened, named once and closed, and no two structures share a
    name. *)
Definition well_formed (prelude : list Element) (structures : list StructureDef)
  : Prop :=
  forallb valid_element prelude = true ∧
  forallb valid_structure structures = true ∧
  NoDup (map sd_name structures).

(** The names a structure body refers to, in order. *)
Definition references (body : list Element) : list cstring :=
  omap (λ e, match e with Reference name => Some name | Plain _ _ _ => None end) body.

(** ** Vocabulary of the statements *)

(** A file name that does not fit the local buffer of a [std::string]: the
    names [assign_filename] stores. *)
Definition long_name (filename : cstring) : Prop := (15 < length filename)%nat.

(** The entity at [p] is live and carries the name [nm]. *)
Definition named (h : gmap ptr RawCell) (p : ptr) (nm : cstring) : Prop :=
  ∃ c, h !! p = Some c ∧ rc_name c = Some nm.

(** The accumulator maps neither [a] nor [b] under its own name. *)
Definition unvisited (h : gmap ptr RawCell) (a b : ptr) (acc : gmap cstring ptr)
  : Prop :=
  ∀ p nm, p = a ∨ p = b → named h p nm → acc !! nm ≠ Some p.

(** Every slot is resolved to a live, named entity. *)
Definition resolved_slots (h : gmap ptr RawCell) (items : list Slot) : Prop :=
  ∀ s, s ∈ items → ∃ p nm, s = Resolved p ∧ named h p nm.

(** No two entities of the list share a name. *)
Definition distinct_names (h : gmap ptr RawCell) (items : list Slot) : Prop :=
  ∀ p q nm, Resolved p ∈ items → Resolved q ∈ items →
    named h p nm → named h q nm → p = q.

(** [p] lists [q] among its dependencies. *)
Definition edge (h : gmap ptr RawCell) (p q : ptr) : Prop :=
  ∃ c, h !! p = Some c ∧ Resolved q ∈ rc_dependencies c.

(** [q] is a dependency of [p], or of one of its dependencies, and so on. *)
Inductive reachable (h : gmap ptr RawCell) : ptr → ptr → Prop :=
| reachable_direct p q : edge h p q → reachable h p q
| reachable_through p q r : edge h p q → reachable h q r → reachable h p r.

(** Every logged invocation asked for unlimited depth and ran on an entity
    that [self] depends on, directly or through other entities. *)
Definition expansions (h : gmap ptr RawCell) (self : ptr) (nested : list (ptr * Z))
  : Prop :=
  Forall (λ call, call.2 = -1 ∧ reachable h self call.1) nested.

(** The depth a nested extraction would get if each level consumed one: one
    less, the unlimited sentinel -1 staying as it is. *)
Definition decremented_depth (depth : Z) : Z :=
  if depth =? -1 then -1 else depth - 1.

(** The byte range [offset, offset + size) of a file. *)
Definition byte_range (contents : list Z) (offset size : Z) : list Z :=
  take (Z.to_nat size) (drop (Z.to_nat offset) contents).

(** The entity the record loop builds for a structure written at [pos]. *)
Definition loaded_cell (fn : cstring) (src : nat) (pos : Z) (s : StructureDef)
  : RawCell :=
  mkRawCell (Some (sd_name s)) (Some src) pos None
    (Z.of_nat (length (write_structure s)))
    (map Unresolved (references (sd_body s))) fn.

(** The locals of the record loop after the structures [structures], written
    from [pos] on. *)
Fixpoint load_structures (fn : cstring) (src : nat) (pos : Z)
    (structures : list StructureDef) (l : Load) : Load :=
  match structures with
  | [] => l
  | s :: structures' =>
    load_structures fn src (pos + Z.of_nat (length (write_structure s))) structures'
      (mkLoad (<[sd_name s := ld_next l]> (ld_result l))
         (<[ld_next l := loaded_cell fn src pos s]> (ld_heap l))
         (S (ld_next l)) ((ld_uses l + 1) mod 2 ^ 64) None)
  end.

(** What the record loop leaves for the second pass. *)
Record loaded_ok (fn : cstring) (src : nat) (structures : list StructureDef)
    (result : gmap cstring ptr) (h : gmap ptr RawCell) : Prop := {
  lo_size : size result = length structures;
  lo_present : ∀ s, s ∈ structures → is_Some (result !! sd_name s);
  lo_cell : ∀ nm p, result !! nm = Some p →
    ∃ s off, s ∈ structures ∧ sd_name s = nm ∧ h !! p = Some (loaded_cell fn src off s);
  lo_inj : ∀ nm1 nm2 p, result !! nm1 = Some p → result !! nm2 = Some p → nm1 = nm2
}.





(** ** Example libraries *)

Definition xy (points : list (Z * Z)) : Element :=
  Plain 16 3 (concat (map (λ p, be32 p.1 ++ be32 p.2) points)).

(** A boundary element on layer 1 with the given vertices. *)
Definition boundary_el (points : list (Z * Z)) : list Element :=
  [Plain 8 0 []; Plain 13 2 (be16 1); Plain 14 2 (be16 0); xy points; Plain 17 0 []].

(** A placement of the structure [name]. *)
Definition sref_el (name : cstring) (at_ : Z * Z) : list Element :=
  [Plain 10 0 []; Reference name; xy [at_]; Plain 17 0 []].

(** A text label. *)
Definition text_el (s : cstring) (at_ : Z * Z) : list Element :=
  [Plain 12 0 []; Plain 13 2 (be16 1); Plain 22 2 (be16 0); xy [at_];
   Plain 25 6 (padded s); Plain 17 0 []].

(** HEADER, BGNLIB and LIBNAME.  The examples carry no UNITS record, so the
    scale factor keeps its initial value 1 and gdsii_real_to_double is never
    called. *)
Definition prelude_ex : list Element :=
  [Plain 0 2 (be16 600); Plain 1 2 (concat (replicate 12 (be16 0)));
   Plain 2 6 (padded (ascii "LIB"))].

Definition units_unread : Z → float := λ _, 1%float.

Definition timestamps : list Z := concat (replicate 12 (be16 0)).

(** A file name of 18 bytes: longer than the 15 bytes a [std::string] keeps
    in place. *)
Definition file_ex : cstring := ascii "library_layout.gds".

Definition square : list (Z * Z) := [(0, 0); (10, 0); (10, 10); (0, 10); (0, 0)].
Definition triangle : list (Z * Z) := [(1, 1); (5, 1); (3, 4); (1, 1)].

(** The map and the entities read_rawcells returns for a file. *)
Definition load_file (fs : gmap cstring (list Z)) (filename : cstring)
  : gmap cstring ptr * gmap ptr RawCell :=
  match read_rawcells 0 fs filename None None with
  | Done (l, _) => (ld_map l, heap (ld_world l))
  | _ => (∅, ∅)
  end.

(** The arguments the Python binding starts an extraction with. *)
Definition extraction0 : Extraction := mkExtraction 0 (Some NoError) [] [] [].

(** One structure holding one boundary of five coordinate pairs. *)
Definition single_structures : list StructureDef :=
  [mkStructureDef timestamps (ascii "TOP") (boundary_el square)].
Definition single_fs : gmap cstring (list Z) :=
  {[file_ex := write_library prelude_ex single_structures]}.

(** The target followed by a structure it does not reference. *)
Definition unrelated_structures : list StructureDef :=
  [mkStructureDef timestamps (ascii "TOP") (boundary_el square);
   mkStructureDef timestamps (ascii "OTHER") (boundary_el triangle)].
Definition unrelated_fs : gmap cstring (list Z) :=
  {[file_ex := write_library prelude_ex unrelated_structures]}.

(** TOP places SUB; a text label reading SUB precedes the placement. *)
Definition nested_structures : list StructureDef :=
  [mkStructureDef timestamps (ascii "TOP")
     (text_el (ascii "SUB") (0, 0) ++ sref_el (ascii "SUB") (20, 20));
   mkStructureDef timestamps (ascii "SUB") (boundary_el triangle)].
Definition nested_fs : gmap cstring (list Z) :=
  {[file_ex := write_library prelude_ex nested_structures]}.

(** TOP places SUB and holds nothing else. *)
Definition plain_structures : list StructureDef :=
  [mkStructureDef timestamps (ascii "TOP") (sref_el (ascii "SUB") (20, 20));
   mkStructureDef timestamps (ascii "SUB") (boundary_el triangle)].
Definition plain_fs : gmap cstring (list Z) :=
  {[file_ex := write_library prelude_ex plain_structures]}.

(** A file name of 10 bytes, and the nested library under that name. *)
Definition short_ex : cstring := ascii "layout.gds".
Definition short_fs : gmap cstring (list Z) :=
  {[short_ex := write_library prelude_ex nested_structures]}.

(** A text label reading A, a placement of B and a placement of A. *)
Definition stale_structures : list StructureDef :=
  [mkStructureDef timestamps (ascii "TOP")
     (text_el (ascii "A") (0, 0) ++ sref_el (ascii "B") (0, 0)
      ++ sref_el (ascii "A") (0, 0));
   mkStructureDef timestamps (ascii "A") (boundary_el triangle);
   mkStructureDef timestamps (ascii "B") (boundary_el square)].
Definition stale_fs : gmap cstring (list Z) :=
  {[file_ex := write_library prelude_ex stale_structures]}.

(** TOP places GONE, which the file does not define, and SUB. *)
Definition dangling_top : StructureDef :=
  mkStructureDef timestamps (ascii "TOP")
    (sref_el (ascii "GONE") (0, 0) ++ sref_el (ascii "SUB") (20, 20)).
Definition dangling_structures : list StructureDef :=
  [dangling_top; mkStructureDef timestamps (ascii "SUB") (boundary_el triangle)].
Definition short_dangling_fs : gmap cstring (list Z) :=
  {[short_ex := write_library prelude_ex dangling_structures]}.

(** A file that ends after its only structure, with no ENDLIB record. *)
Definition truncated_fs : gmap cstring (list Z) :=
  {[file_ex := concat (map write_element prelude_ex)
               ++ write_structure
                    (mkStructureDef timestamps (ascii "TOP")
                       (sref_el (ascii "SUB") (20, 20)))]}.

(** The same with a structure that references nothing. *)
Definition truncated_plain_fs : gmap cstring (list Z) :=
  {[file_ex := concat (map write_element prelude_ex)
               ++ write_structure
                    (mkStructureDef timestamps (ascii "TOP") (boundary_el triangle))]}.

(** A places B and itself, B places A. *)
Definition cyclic_structures : list StructureDef :=
  [mkStructureDef timestamps (ascii "A")
     (sref_el (ascii "B") (0, 0) ++ sref_el (ascii "A") (1, 1));
   mkStructureDef timestamps (ascii "B") (sref_el (ascii "A") (0, 0))].
Definition cyclic_fs : gmap cstring (list Z) :=
  {[file_ex := write_library prelude_ex cyclic_structures]}.

Definition cell_A : RawCell :=
  mkRawCell (Some (ascii "A")) (Some 0%nat) 42 None 90
    [Resolved 1%nat; Resolved 0%nat] file_ex.
Definition cell_B : RawCell :=
  mkRawCell (Some (ascii "B")) (Some 0%nat) 132 None 64 [Resolved 0%nat] file_ex.
Definition cyclic_heap : gmap ptr RawCell := {[0%nat := cell_A; 1%nat := cell_B]}.

(** An entity of three bytes at offset 2 of a six-byte source. *)
Definition lazy_cell : RawCell :=
  mkRawCell (Some (ascii "TOP")) (Some 0%nat) 2 None 3 [] file_ex.
Definition lazy_source : RawSource := mkRawSource [10; 11; 12; 13; 14; 15] 1.
Definition lazy_world : World :=
  mkWorld {[0%nat := lazy_cell]} {[0%nat := lazy_source]}.

(** ** Vocabulary of the further properties *)

(** Every dependency list of the heap is resolved to live, named entities. *)
Definition resolved_heap (h : gmap ptr RawCell) : Prop :=
  ∀ p c, h !! p = Some c → resolved_slots h (rc_dependencies c).

(** No two entities share a name. *)
Definition unique_names (h : gmap ptr RawCell) : Prop :=
  ∀ p q nm, named h p nm → named h q nm → p = q.

(** The dependency graph has no cycle: [rank] decreases along every edge. *)
Definition ranked (h : gmap ptr RawCell) (rank : ptr → nat) : Prop :=
  ∀ p q, edge h p q → (rank q < rank p)%nat.

(** Every entry of the accumulator maps a name to the entity carrying it. *)
Definition consistent (h : gmap ptr RawCell) (acc : gmap cstring ptr) : Prop :=
  ∀ nm q, acc !! nm = Some q → named h q nm.

(** The accumulator holds the dependencies of every entity it holds. *)
Definition closed (h : gmap ptr RawCell) (acc : gmap cstring ptr) : Prop :=
  ∀ nm p q nmq, acc !! nm = Some p → edge h p q → named h q nmq → acc !! nmq = Some q.

(** The polygon id of an output triple. *)
Definition polygon_id (t : Z * Z * Z) : Z := t.2.

(** [x'] is [x] with triples appended, whose polygon ids start at the
    [start_id] of [x], never decrease along the output, and stay below the
    [start_id] of [x'], which is still an [int] when that of [x] is. *)
Definition appends (x x' : Extraction) : Prop :=
  ∃ new, polygons x' = polygons x ++ new ∧
    start_id x ≤ start_id x' ∧
    (start_id x < 2 ^ 31 → start_id x' < 2 ^ 31) ∧
    Forall (λ t, start_id x ≤ polygon_id t < start_id x') new ∧
    StronglySorted (λ a b, polygon_id a ≤ polygon_id b) new.

(** The entities that refer to the source [s]. *)
Definition referrers (h : gmap ptr RawCell) (s : nat) : gmap ptr RawCell :=
  filter (λ kv, rc_source kv.2 = Some s) h.

(** An entity either refers to a source and owns no buffer, or owns a buffer
    that holds its [size] bytes (none is needed for size 0).  read_rawcells
    builds entities of the first kind, to_gds and clear turn them into
    entities of the second kind. *)
Definition kept (c : RawCell) : Prop :=
  match rc_source c with
  | Some _ => rc_data c = None
  | None =>
    rc_size c = 0 ∨ ∃ d, rc_data c = Some d ∧ (Z.to_nat (rc_size c) ≤ length d)%nat
  end.

(** The state the code keeps entities and shared sources in: the source an
    entity refers to is open, and the use count of an open source is the
    number of entities that refer to it, which is not zero. *)
Record sound (w : World) : Prop := {
  sound_kept : ∀ p c, heap w !! p = Some c → kept c;
  sound_open : ∀ p c s, heap w !! p = Some c → rc_source c = Some s →
    is_Some (sources w !! s);
  sound_uses : ∀ s src, sources w !! s = Some src →
    src_uses src = Z.of_nat (size (referrers (heap w) s)) ∧ 0 < src_uses src < 2 ^ 64
}.

(** Some entity other than [self] refers to the source [s]. *)
Definition shared_with (h : gmap ptr RawCell) (self : ptr) (s : nat) : Prop :=
  ∃ p c, p ≠ self ∧ h !! p = Some c ∧ rc_source c = Some s.




(** A library cut off after its last complete structure: the records before
    the first structure, the structures, and fewer bytes than a record header
    where ENDLIB should be. *)
Definition write_truncated (prelude : list Element) (structures : list StructureDef)
    (tail : list Z) : list Z :=
  concat (map write_element prelude) ++ concat (map write_structure structures) ++ tail.

(** ** Further examples *)

Definition dag_cell (nm : String.string) (dependencies : list Slot) : RawCell :=
  mkRawCell (Some (ascii nm)) None 0 None 0 dependencies file_ex.

(** TOP places MID and LEAF, MID places LEAF. *)
Definition dag_heap : gmap ptr RawCell :=
  {[0%nat := dag_cell "TOP" [Resolved 1%nat; Resolved 2%nat];
    1%nat := dag_cell "MID" [Resolved 2%nat];
    2%nat := dag_cell "LEAF" []]}.

Definition dag_rank (p : ptr) : nat := (2 - p)%nat.

(** The record buffer after an XY record of three coordinate pairs (six
    words), byte-swapped to host order. *)
Definition xy_buffer : list Z :=
  [0; 28; 16; 3; 1; 0; 0; 0; 2; 0; 0; 0; 3; 0; 0; 0; 4; 0; 0; 0; 5; 0; 0; 0;
   6; 0; 0; 0].


(** Two entities of one six-byte source, which counts two uses. *)
Definition shared_world : World :=
  mkWorld {[0%nat := lazy_cell;
            1%nat := mkRawCell (Some (ascii "SUB")) (Some 0%nat) 0 None 2 [] file_ex]}
          {[0%nat := mkRawSource [10; 11; 12; 13; 14; 15] 2]}.

(** An entity whose range ends two bytes past the end of its source. *)
Definition short_world : World :=
  mkWorld {[0%nat := mkRawCell (Some (ascii "TOP")) (Some 0%nat) 5 None 3 [] file_ex]}
          {[0%nat := lazy_source]}.

(** * Properties *)

Lemma file_ex_long : long_name file_ex.
Proof. unfold long_name. cbn. lia. Qed.

(** ** get_dependencies *)

Lemma unvisited_insert h a b acc nm r :
  unvisited h a b acc → r ≠ a → r ≠ b → unvisited h a b (<[nm := r]> acc).
Proof.
  intros Hun Hra Hrb p nm' Hp Hnamed.
  destruct (decide (nm = nm')) as [->|Hne].
  - rewrite lookup_insert_eq. intros [= ->]. destruct Hp; congruence.
  - rewrite lookup_insert_ne by done. by apply Hun.
Qed.

Section CycleLoop.
Variable h : gmap ptr RawCell.
Variables a b : ptr.
Variable recurse : ptr → gmap cstring ptr → Res (gmap cstring ptr).
Hypothesis recurse_avoids : ∀ x acc acc',
  unvisited h a b acc → recurse x acc = Done acc' →
  unvisited h a b acc' ∧ x ≠ a ∧ x ≠ b.

(** A loop that finishes never met [a] or [b]: meeting one of them while it
    is unvisited starts a recursion that does not finish. *)
Lemma get_dependencies_loop_avoids items acc acc' :
  unvisited h a b acc →
  get_dependencies_loop h true recurse items acc = Done acc' →
  unvisited h a b acc' ∧ (Resolved a ∉ items) ∧ (Resolved b ∉ items).
Proof.
  revert acc. induction items as [|[nm|r] items IH]; intros acc Hun Hrun; simpl in Hrun.
  - inversion Hrun; subst. split; [done|]. split; apply not_elem_of_nil.
  - discriminate.
  - destruct (h !! r) as [rc|] eqn:Hr; [|discriminate].
    destruct (rc_name rc) as [nm|] eqn:Hnm; [|discriminate].
    assert (Hnamed : named h r nm) by (exists rc; done).
    destruct (bool_decide (acc !! nm = Some r)) eqn:Hseen; simpl in Hrun.
    + apply bool_decide_eq_true in Hseen.
      assert (r ≠ a ∧ r ≠ b) as [Hra Hrb].
      { split; intros ->; [apply (Hun a nm) | apply (Hun b nm)]; auto. }
      destruct (IH _ (unvisited_insert _ _ _ _ nm r Hun Hra Hrb) Hrun) as (? & ? & ?).
      split; [done|]. split; rewrite elem_of_cons; intros [[=]|]; done.
    + destruct (recurse r acc) as [acc1| |] eqn:Hrec; simpl in Hrun; try discriminate.
      destruct (recurse_avoids _ _ _ Hun Hrec) as (Hun1 & Hra & Hrb).
      destruct (IH _ (unvisited_insert _ _ _ _ nm r Hun1 Hra Hrb) Hrun) as (? & ? & ?).
      split; [done|]. split; rewrite elem_of_cons; intros [[=]|]; done.
Qed.
End CycleLoop.

Lemma get_dependencies_avoids h a b A B fuel :
  h !! a = Some A → h !! b = Some B →
  Resolved b ∈ rc_dependencies A → Resolved a ∈ rc_dependencies B →
  ∀ x acc acc', unvisited h a b acc →
    get_dependencies fuel h true x acc = Done acc' →
    unvisited h a b acc' ∧ x ≠ a ∧ x ≠ b.
Proof.
  intros Ha Hb HAB HBA. induction fuel as [|fuel IH]; intros x acc acc' Hun Hrun.
  - discriminate.
  - simpl in Hrun. destruct (h !! x) as [c|] eqn:Hx; [|discriminate].
    destruct (get_dependencies_loop_avoids h a b _ IH _ _ _ Hun Hrun) as (Hun' & Hna & Hnb).
    split; [done|]. split; intros ->; simplify_eq; done.
Qed.

(** C1 (the code departs from the claim): for entities A and B that form a
    mutual cycle, get_dependencies on A with recursive = true and an empty
    accumulator does not terminate: whatever the fuel, the run never finishes,
    so no accumulator {A, B} is ever returned.  The guard compares the
    accumulator with the entity before the entity is inserted, and the
    insertion only follows the recursive call. *)
Theorem get_dependencies_mutual_cycle h a b A B :
  h !! a = Some A → h !! b = Some B →
  Resolved b ∈ rc_dependencies A → Resolved a ∈ rc_dependencies B →
  ∀ fuel, is_done (get_dependencies fuel h true a ∅) = false.
Proof.
  intros Ha Hb HAB HBA fuel.
  destruct (get_dependencies fuel h true a ∅) as [acc'| |] eqn:Hrun; [|done..].
  exfalso.
  assert (Hun : unvisited h a b ∅) by (intros p nm _ _; by rewrite lookup_empty).
  destruct (get_dependencies_avoids h a b A B fuel Ha Hb HAB HBA a ∅ acc' Hun Hrun)
    as (_ & Hne & _).
  done.
Qed.

(** The cyclic heap is what read_rawcells builds from the cyclic library. *)
Lemma cyclic_library_loaded :
  load_file cyclic_fs file_ex
  = ({[ascii "A" := 0%nat; ascii "B" := 1%nat]}, cyclic_heap).
Proof. vm_compute. reflexivity. Qed.

Lemma get_dependencies_mutual_cycle_witness :
  is_done (get_dependencies 1000 cyclic_heap true 0%nat ∅) = false.
Proof.
  apply (get_dependencies_mutual_cycle cyclic_heap 0%nat 1%nat cell_A cell_B).
  - reflexivity.
  - reflexivity.
  - cbn. set_solver.
  - cbn. set_solver.
Defined.

(** On the cyclic heap every run ends by exhausting its fuel: the recursion
    A, B, A, ... is never cut. *)
Lemma get_dependencies_cyclic_out_of_fuel fuel :
  get_dependencies fuel cyclic_heap true 0%nat ∅ = OutOfFuel ∧
  get_dependencies fuel cyclic_heap true 1%nat ∅ = OutOfFuel.
Proof.
  induction fuel as [|fuel [IH0 IH1]]; [done|].
  split; cbn [get_dependencies].
  - change (cyclic_heap !! 0%nat) with (Some cell_A).
    cbn [rc_dependencies cell_A get_dependencies_loop].
    change (cyclic_heap !! 1%nat) with (Some cell_B). cbn [rc_name cell_B].
    rewrite lookup_empty. cbn. by rewrite IH1.
  - change (cyclic_heap !! 1%nat) with (Some cell_B).
    cbn [rc_dependencies cell_B get_dependencies_loop].
    change (cyclic_heap !! 0%nat) with (Some cell_A). cbn [rc_name cell_A].
    rewrite lookup_empty. cbn. by rewrite IH0.
Qed.

(** Whether a name is carried by an entity of the list can be decided. *)
Lemma named_in_list_dec (h : gmap ptr RawCell) (items : list Slot) nm :
  (∃ q, Resolved q ∈ items ∧ named h q nm) ∨
  ¬ (∃ q, Resolved q ∈ items ∧ named h q nm).
Proof.
  induction items as [|[n|q] items IHi].
  - right. intros (q & Hq & _). by apply elem_of_nil in Hq.
  - destruct IHi as [(q & Hq & Hqn)|Hno]; [left; exists q; split; [by right|done]|].
    right. intros (q & Hq & Hqn). apply Hno. exists q. split; [|done].
    by apply elem_of_cons in Hq as [[=]|Hq].
  - destruct IHi as [(q' & Hq & Hqn)|Hno]; [left; exists q'; split; [by right|done]|].
    destruct (h !! q) as [c|] eqn:Hc.
    + destruct (decide (rc_name c = Some nm)) as [Hn|Hn].
      * left. exists q. split; [left|]. by exists c.
      * right. intros (q' & Hq & Hqn). apply elem_of_cons in Hq as [[= ->]|Hq].
        -- destruct Hqn as (c' & ? & ?). by simplify_eq.
        -- apply Hno. by exists q'.
    + right. intros (q' & Hq & Hqn). apply elem_of_cons in Hq as [[= ->]|Hq].
      * destruct Hqn as (c' & ? & ?). by simplify_eq.
      * apply Hno. by exists q'.
Qed.

(** Without recursion the loop is a left fold of [set]: a name carried by no
    listed entity keeps its entry, a carried name ends mapped to the last
    entity carrying it. *)
Lemma get_dependencies_loop_flat h recurse items acc :
  resolved_slots h items →
  ∃ acc', get_dependencies_loop h false recurse items acc = Done acc' ∧
    (∀ nm, (∀ p, Resolved p ∈ items → ¬ named h p nm) → acc' !! nm = acc !! nm) ∧
    (∀ p nm, Resolved p ∈ items → named h p nm →
       ∃ q, Resolved q ∈ items ∧ named h q nm ∧ acc' !! nm = Some q).
Proof.
  revert acc. induction items as [|s items IH]; intros acc Hres.
  - exists acc. split; [done|]. split; [done|]. intros p nm Hin. by apply elem_of_nil in Hin.
  - destruct (Hres s) as (r & nm & -> & rc & Hr & Hnm); [left|].
    simpl. rewrite Hr, Hnm. simpl.
    destruct (IH (<[nm := r]> acc)) as (acc' & Hrun & Hother & Hdeps).
    { intros s Hs. apply Hres. by right. }
    exists acc'. split; [done|]. split.
    + intros nm' Hnone. rewrite Hother.
      * apply lookup_insert_ne. intros ->. apply (Hnone r); [left|]. by exists rc.
      * intros p Hp. apply Hnone. by right.
    + intros p nm' Hin Hnamed.
      destruct (named_in_list_dec h items nm') as [(q & Hq & Hqn)|Hlast].
      * destruct (Hdeps q nm' Hq Hqn) as (q' & ? & ? & ?). exists q'. split; [by right|done].
      * assert (p = r ∧ nm' = nm) as [-> ->].
        { apply elem_of_cons in Hin as [[= ->]|Hin].
          - destruct Hnamed as (c & Hc & Hcn). by simplify_eq.
          - destruct Hlast. by exists p. }
        exists r. split; [left|]. split; [done|].
        rewrite Hother; [apply lookup_insert_eq|].
        intros q Hq Hqn. apply Hlast. by exists q.
Qed.

(** C10: with recursive = false get_dependencies terminates on every
    dependency graph, cycles and self-loops included (it makes no recursive
    call, so one unit of fuel is enough).  Afterwards every name carried by an
    entity of the caller's resolved dependency list is mapped to a listed
    entity carrying it, which is that entity itself when the listed entities
    carry distinct names, as the data model requires; entries under other
    names are unchanged. *)
Theorem get_dependencies_direct h self c acc fuel :
  h !! self = Some c →
  resolved_slots h (rc_dependencies c) →
  ∃ acc', get_dependencies (S fuel) h false self acc = Done acc' ∧
    (∀ p nm, Resolved p ∈ rc_dependencies c → named h p nm →
       ∃ q, Resolved q ∈ rc_dependencies c ∧ named h q nm ∧ acc' !! nm = Some q) ∧
    (distinct_names h (rc_dependencies c) →
     ∀ p nm, Resolved p ∈ rc_dependencies c → named h p nm → acc' !! nm = Some p) ∧
    (∀ nm, (∀ p, Resolved p ∈ rc_dependencies c → ¬ named h p nm) →
       acc' !! nm = acc !! nm).
Proof.
  intros Hself Hres. cbn [get_dependencies]. rewrite Hself.
  destruct (get_dependencies_loop_flat h (get_dependencies fuel h true) (rc_dependencies c)
              acc Hres) as (acc' & Hrun & Hother & Hdeps).
  exists acc'. split; [done|]. split; [done|]. split; [|done].
  intros Hdistinct p nm Hp Hnamed.
  destruct (Hdeps p nm Hp Hnamed) as (q & Hq & Hqn & Hacc).
  by rewrite (Hdistinct p q nm Hp Hq Hnamed Hqn).
Qed.

Lemma named_cyclic p nm :
  named cyclic_heap p nm → (p = 0%nat ∧ nm = ascii "A") ∨ (p = 1%nat ∧ nm = ascii "B").
Proof.
  intros (c & Hc & Hnm). unfold cyclic_heap in Hc.
  destruct p as [|[|p]].
  - left. vm_compute in Hc. injection Hc as <-. by injection Hnm as <-.
  - right. vm_compute in Hc. injection Hc as <-. by injection Hnm as <-.
  - rewrite lookup_insert_ne, lookup_singleton_ne in Hc by done. done.
Qed.

Lemma get_dependencies_direct_witness :
  ∃ acc', get_dependencies 1 cyclic_heap false 0%nat ∅ = Done acc' ∧
    acc' !! ascii "A" = Some 0%nat ∧ acc' !! ascii "B" = Some 1%nat ∧
    acc' !! ascii "TOP" = None.
Proof.
  destruct (get_dependencies_direct cyclic_heap 0%nat cell_A ∅ 0%nat)
    as (acc' & Hrun & _ & Hdeps & Hother).
  - reflexivity.
  - intros s Hs. cbn in Hs.
    apply elem_of_cons in Hs as [->|Hs]; [|apply elem_of_cons in Hs as [->|Hs]].
    + exists 1%nat, (ascii "B"). split; [done|]. by exists cell_B.
    + exists 0%nat, (ascii "A"). split; [done|]. by exists cell_A.
    + by apply elem_of_nil in Hs.
  - assert (Hdistinct : distinct_names cyclic_heap (rc_dependencies cell_A)).
    { intros p q nm _ _ Hp Hq.
      destruct (named_cyclic p nm Hp) as [[-> ->]|[-> ->]],
               (named_cyclic q _ Hq) as [[-> Heq]|[-> Heq]]; done. }
    specialize (Hdeps Hdistinct).
    exists acc'. split; [done|]. split; [|split].
    + apply Hdeps; [cbn; set_solver|]. by exists cell_A.
    + apply Hdeps; [cbn; set_solver|]. by exists cell_B.
    + rewrite Hother; [done|]. intros p _ Hp.
      by destruct (named_cyclic p _ Hp) as [[_ ?]|[_ ?]].
Defined.

(** ** get_polygons *)

Lemma gdsii_read_record_shrinks input buffer buf record_length rest :
  gdsii_read_record input buffer = inr (buf, record_length, rest) →
  (length rest < length input)%nat.
Proof.
  unfold gdsii_read_record.
  destruct input as [|b0 [|b1 [|b2 [|b3 tail]]]]; try discriminate.
  destruct (256 * b0 + b1 <? 4); [discriminate|].
  destruct (_ <? _)%nat; [discriminate|].
  intros [= <- <- <-]. rewrite length_drop. simpl. lia.
Qed.

(** The bound handed to the XY loop is never exhausted. *)
Lemma xy_loop_total bound buffer factor data_length i id polygons :
  (Z.to_nat (data_length - i) < bound)%nat →
  xy_loop bound buffer factor data_length i id polygons ≠ OutOfFuel.
Proof.
  revert i polygons. induction bound as [|bound IH]; intros i polygons Hb; [lia|].
  simpl. destruct (i <? data_length) eqn:Hi; [|done].
  apply Z.ltb_lt in Hi.
  destruct (data32 buffer i); [|done]. destruct (data32 buffer (i + 1)); [|done].
  destruct (scale factor z); [|done]. destruct (scale factor z0); [|done].
  apply IH. lia.
Qed.

Lemma reachable_trans h p q r : reachable h p q → reachable h q r → reachable h p r.
Proof.
  intros Hpq Hqr. induction Hpq as [p q Hedge|p q q' Hedge Hreach IH].
  - by eapply reachable_through.
  - eapply reachable_through; [done|]. by apply IH.
Qed.

Section ReachLoop.
Variable h : gmap ptr RawCell.
Variable recursive : bool.
Variable self : ptr.
Variable recurse : ptr → gmap cstring ptr → Res (gmap cstring ptr).
Hypothesis recurse_reach : ∀ r acc acc',
  recurse r acc = Done acc' →
  ∀ nm q, acc' !! nm = Some q → acc !! nm = Some q ∨ reachable h r q.

(** What the loop adds to the accumulator is a dependency of [self] or of one
    of its dependencies. *)
Lemma get_dependencies_loop_reach items acc acc' :
  (∀ q, Resolved q ∈ items → edge h self q) →
  get_dependencies_loop h recursive recurse items acc = Done acc' →
  ∀ nm q, acc' !! nm = Some q → acc !! nm = Some q ∨ reachable h self q.
Proof.
  revert acc. induction items as [|[name|r] items IH]; intros acc Hedges;
    cbn [get_dependencies_loop].
  - intros [= <-] nm q Hq. by left.
  - done.
  - destruct (h !! r) as [rc|]; [|done]. destruct (rc_name rc) as [nmr|]; [|done].
    assert (Hedge : edge h self r) by (apply Hedges; left).
    assert (Hedges' : ∀ q, Resolved q ∈ items → edge h self q).
    { intros q Hq. apply Hedges. by right. }
    destruct (recursive && negb (bool_decide (acc !! nmr = Some r))).
    + destruct (recurse r acc) as [acc1| |] eqn:Hrec; cbn [res_bind]; try done.
      intros Hrun nm q Hq.
      destruct (IH _ Hedges' Hrun nm q Hq) as [Hq1|]; [|by right].
      destruct (decide (nmr = nm)) as [->|Hne].
      * rewrite lookup_insert_eq in Hq1. injection Hq1 as <-.
        right. by apply reachable_direct.
      * rewrite lookup_insert_ne in Hq1 by done.
        destruct (recurse_reach _ _ _ Hrec nm q Hq1) as [|Hreach]; [by left|].
        right. by eapply reachable_through.
    + cbn [res_bind]. intros Hrun nm q Hq.
      destruct (IH _ Hedges' Hrun nm q Hq) as [Hq1|]; [|by right].
      destruct (decide (nmr = nm)) as [->|Hne].
      * rewrite lookup_insert_eq in Hq1. injection Hq1 as <-.
        right. by apply reachable_direct.
      * rewrite lookup_insert_ne in Hq1 by done. by left.
Qed.
End ReachLoop.

Lemma get_dependencies_reach h fuel : ∀ recursive self acc acc',
  get_dependencies fuel h recursive self acc = Done acc' →
  ∀ nm q, acc' !! nm = Some q → acc !! nm = Some q ∨ reachable h self q.
Proof.
  induction fuel as [|fuel IH]; intros recursive self acc acc'; [done|].
  cbn [get_dependencies]. destruct (h !! self) as [c|] eqn:Hc; [|done].
  apply get_dependencies_loop_reach.
  - intros r acc0 acc1. apply IH.
  - intros q Hq. by exists c.
Qed.

Section DepthScan.
Variable gdsii_real_to_double : Z → float.
Variable h : gmap ptr RawCell.
Variable fuel : nat.
Variable self : ptr.
Variable name : option cstring.
Variable depth : Z.
Variable unit : float.
Variable recurse : ptr → float → Extraction * Sink → Res (Extraction * Sink).

Ltac scan_cases fin :=
  repeat first
    [ done | fin
    | match goal with
      | |- context [data64 ?b ?i] => destruct (data64 b i)
      | |- context [match name with _ => _ end] => destruct name
      | |- context [strncmp_eq ?a ?b ?c] => destruct (strncmp_eq a b c)
      | |- context [if target_cell_found ?s then _ else _] =>
        destruct (target_cell_found s)
      | |- context [if found_polygon ?s then _ else _] => destruct (found_polygon s)
      | |- context [if start_id ?x <? ?b then _ else _] => destruct (start_id x <? b)
      end ].

(** With depth 0 the scan reads the file to its end without starting another
    extraction. *)
Lemma scan_loop_depth_zero n s x sink :
  depth = 0 →
  (length (input s) < n)%nat →
  match scan_loop gdsii_real_to_double h fuel self name depth unit recurse n s (x, sink)
  with
  | Done (x', _) => calls x' = calls x
  | OutOfFuel => False
  | Fault => True
  end.
Proof.
  intros ->. revert s x sink. induction n as [|n IH]; intros s x sink Hn; [lia|].
  cbn [scan_loop input buffer factor tolerance target_cell_found found_polygon].
  destruct (gdsii_read_record (input s) (buffer s)) as [err|[[buf0 rl] rest]] eqn:Hread;
    [done|].
  apply gdsii_read_record_shrinks in Hread.
  assert (Hrest : (length rest < n)%nat) by lia.
  destruct (swap_payload buf0 rl) as [dl buf].
  rewrite andb_false_r.
  destruct (gdsii_record (default 0 (buf !! 2%nat)));
    try (destruct (found_polygon s);
         [pose proof (xy_loop_total (S (Z.to_nat dl)) buf (factor s) dl 0 (start_id x)
                        (polygons x)) as Hxy;
          destruct (xy_loop _ _ _ _ _ _ _); cbn [res_bind];
          [|exfalso; apply Hxy; [lia|done]|done]|]);
    scan_cases ltac:(first [exact (IH _ _ _ Hrest)
                           | match goal with
                             | |- context [scan_loop _ _ _ _ _ _ _ _ _ ?s' (?x', ?k)] =>
                               exact (IH s' x' k Hrest)
                             end]).
Qed.

Hypothesis recurse_expansions : ∀ ref tol x sink x' sink',
  recurse ref tol (x, sink) = Done (x', sink') →
  ∃ nested, calls x' = calls x ++ (ref, -1) :: nested ∧ expansions h ref nested.

Lemma scan_loop_expansions n s x sink x' sink' :
  scan_loop gdsii_real_to_double h fuel self name depth unit recurse n s (x, sink)
  = Done (x', sink') →
  ∃ nested, calls x' = calls x ++ nested ∧ expansions h self nested.
Proof.
  revert s x sink. induction n as [|n IH]; intros s x sink; [done|].
  cbn [scan_loop input buffer factor tolerance target_cell_found found_polygon].
  destruct (gdsii_read_record (input s) (buffer s)) as [err|[[buf0 rl] rest]].
  { intros [= <- <-]. exists []. split; [by rewrite app_nil_r | constructor]. }
  destruct (swap_payload buf0 rl) as [dl buf].
  assert (Hdone : Done (x, sink) = Done (x', sink') →
                  ∃ nested, calls x' = calls x ++ nested ∧ expansions h self nested).
  { intros [= <- <-]. exists []. split; [by rewrite app_nil_r | constructor]. }
  assert (Hsref :
    (if target_cell_found s && negb (depth =? 0)
     then
      let* dependency_map := get_dependencies fuel h true self ∅ in
      match str_at (drop 4 buf) with
      | None => Fault
      | Some str =>
        match dependency_map !! str with
        | None => scan_loop gdsii_real_to_double h fuel self name depth unit recurse n
                    (mkScan rest buf (factor s) (tolerance s) (target_cell_found s)
                       (found_polygon s)) (x, sink)
        | Some ref =>
          match h !! ref with
          | None => Fault
          | Some rc =>
            let* xs' := recurse ref (tolerance s)
              (mkExtraction (start_id x) (error_code x) (polygons x)
                 (stdout x ++ [DependencyName (default [] (rc_name rc)) (start_id x)])
                 (calls x), sink) in
            scan_loop gdsii_real_to_double h fuel self name depth unit recurse n
              (mkScan rest buf (factor s) (tolerance s) (target_cell_found s)
                 (found_polygon s)) xs'
          end
        end
      end
     else scan_loop gdsii_real_to_double h fuel self name depth unit recurse n
            (mkScan rest buf (factor s) (tolerance s) (target_cell_found s)
               (found_polygon s)) (x, sink)) = Done (x', sink') →
    ∃ nested, calls x' = calls x ++ nested ∧ expansions h self nested).
  { destruct (target_cell_found s && negb (depth =? 0)); [|apply IH].
    destruct (get_dependencies fuel h true self ∅) as [m| |] eqn:Hdeps; cbn [res_bind];
      try done.
    destruct (str_at _) as [str|]; [|done].
    destruct (m !! str) as [ref|] eqn:Hstr; [|apply IH].
    assert (Hreach : reachable h self ref).
    { destruct (get_dependencies_reach _ _ _ _ _ _ Hdeps _ _ Hstr) as [Hempty|]; [|done].
      by rewrite lookup_empty in Hempty. }
    destruct (h !! ref); [|done].
    destruct (recurse _ _ _) as [[x1 sink1]| |] eqn:Hrec; cbn [res_bind]; try done.
    apply recurse_expansions in Hrec as (nested1 & Hcalls1 & Hex1).
    cbn [calls] in Hcalls1.
    intros Hrun. apply IH in Hrun as (nested2 & Hcalls2 & Hex2).
    exists (((ref, -1) :: nested1) ++ nested2). split.
    - by rewrite Hcalls2, Hcalls1, <- app_assoc.
    - apply Forall_app. split; [|done]. constructor; [done|].
      eapply Forall_impl; [exact Hex1|]. cbn. intros call [Hd Hr].
      split; [done|]. by eapply reachable_trans. }
  destruct (gdsii_record (default 0 (buf !! 2%nat)));
    try exact Hsref; try exact Hdone;
    try (destruct (found_polygon s);
         [destruct (xy_loop _ _ _ _ _ _ _); cbn [res_bind]; [|done..]|]);
    scan_cases ltac:(first [exact (IH _ _ _)
                           | match goal with
                             | |- context [scan_loop _ _ _ _ _ _ _ _ _ ?s' (?x0, ?k)] =>
                               exact (IH s' x0 k)
                             end]).
Qed.
End DepthScan.

Lemma get_polygons_expansions r2d fs h fuel self depth unit tol x sink x' sink' :
  get_polygons r2d fs h fuel self depth unit tol (x, sink) = Done (x', sink') →
  ∃ nested, calls x' = calls x ++ (self, depth) :: nested ∧ expansions h self nested.
Proof.
  revert self depth tol x sink x' sink'.
  induction fuel as [|fuel IH]; intros self depth tol x sink x' sink'; [done|].
  cbn [get_polygons]. destruct (h !! self) as [c|]; [|done].
  destruct (fs !! rc_filename c) as [bytes|].
  - intros Hrun. apply scan_loop_expansions in Hrun as (nested & Hcalls & Hex).
    + exists nested. cbn [calls] in Hcalls. by rewrite Hcalls, <- app_assoc.
    + intros ref tol' y k y' k'. apply IH.
  - intros [= <- <-]. exists []. split; [done|constructor].
Qed.

(** C4 (amended): a depth argument of 0 causes no instance reference to be
    expanded, even when the target structure contains one: the extraction
    needs no recursion (it never exhausts its fuel) and, when it returns, the
    only invocation of get_polygons is the caller's.  For any depth argument,
    every extraction that an extraction starts is invoked with depth -1
    (unlimited), whatever the caller's depth, on an entity the caller depends
    on, directly or through other entities: the depth is not decremented
    level by level. *)
Theorem get_polygons_depth r2d fs h fuel self depth unit tol x sink :
  (depth = 0 →
   match get_polygons r2d fs h (S fuel) self depth unit tol (x, sink) with
   | Done (x', _) => calls x' = calls x ++ [(self, 0)]
   | OutOfFuel => False
   | Fault => True
   end) ∧
  (∀ x' sink',
     get_polygons r2d fs h fuel self depth unit tol (x, sink) = Done (x', sink') →
     ∃ nested, calls x' = calls x ++ (self, depth) :: nested ∧ expansions h self nested).
Proof.
  split; [|intros; by eapply get_polygons_expansions].
  intros ->. cbn [get_polygons]. destruct (h !! self) as [c|]; [|done].
  destruct (fs !! rc_filename c) as [bytes|]; [|done].
  match goal with |- context [scan_loop ?a ?b ?c ?d ?e ?f ?g ?r ?n ?s (?y, ?k)] =>
    pose proof (scan_loop_depth_zero a b c d e 0 g r n s y k eq_refl) as H end.
  cbn [input] in H. specialize (H ltac:(lia)).
  destruct (scan_loop _ _ _ _ _ _ _ _ _ _ _) as [[x1 k1]| |]; done.
Qed.

(** C4 as stated fails three times.  With depth 1 the nested extraction of SUB
    is invoked with depth -1, not with the decremented depth 0.  With depth -1
    and TOP holding only a placement of SUB (its dependency list holds SUB),
    no extraction of SUB is started: the name looked up at the SREF record is
    whatever the previous records left in the buffer, the SNAME record that
    carries it has not been read yet.  For the same reason the extraction is
    not always invoked on the referenced entity: where TOP holds a text label
    reading A, then a placement of B, then a placement of A (its dependency
    list holds B and A), the only extraction started is started at the
    placement of B and runs on A; none runs on B. *)
Lemma get_polygons_depth_counterexample :
  (res_map (λ r, calls r.1)
     (get_polygons units_unread nested_fs (load_file nested_fs file_ex).2 3 0%nat 1
        0%float 0%float (extraction0, None))
   = Done [(0%nat, 1); (1%nat, -1)] ∧ decremented_depth 1 = 0) ∧
  (rc_dependencies <$> (load_file plain_fs file_ex).2 !! 0%nat = Some [Resolved 1%nat] ∧
   res_map (λ r, calls r.1)
     (get_polygons units_unread plain_fs (load_file plain_fs file_ex).2 3 0%nat (-1)
        0%float 0%float (extraction0, None))
   = Done [(0%nat, -1)]) ∧
  (rc_dependencies <$> (load_file stale_fs file_ex).2 !! 0%nat
   = Some [Resolved 2%nat; Resolved 1%nat] ∧
   rc_name <$> (load_file stale_fs file_ex).2 !! 1%nat = Some (Some (ascii "A")) ∧
   rc_name <$> (load_file stale_fs file_ex).2 !! 2%nat = Some (Some (ascii "B")) ∧
   res_map (λ r, calls r.1)
     (get_polygons units_unread stale_fs (load_file stale_fs file_ex).2 3 0%nat 1
        0%float 0%float (extraction0, None))
   = Done [(0%nat, 1); (1%nat, -1)]).
Proof. vm_compute. repeat split. Qed.

Lemma get_polygons_depth_witness :
  match get_polygons units_unread nested_fs (load_file nested_fs file_ex).2 3 0%nat 0
          0%float 0%float (extraction0, None) with
  | Done (x', _) => calls x' = [(0%nat, 0)]
  | OutOfFuel => False
  | Fault => True
  end ∧
  ∃ x' sink' nested,
    get_polygons units_unread nested_fs (load_file nested_fs file_ex).2 3 0%nat 1
      0%float 0%float (extraction0, None) = Done (x', sink') ∧
    calls x' = (0%nat, 1) :: nested ∧
    expansions (load_file nested_fs file_ex).2 0%nat nested.
Proof.
  split.
  - exact (proj1 (get_polygons_depth units_unread nested_fs (load_file nested_fs file_ex).2
                    2 0%nat 0 0%float 0%float extraction0 None) eq_refl).
  - destruct (get_polygons units_unread nested_fs (load_file nested_fs file_ex).2 3 0%nat 1
                0%float 0%float (extraction0, None)) as [[x' sink']| |] eqn:Hrun;
      [|vm_compute in Hrun; discriminate..].
    destruct (proj2 (get_polygons_depth units_unread nested_fs
                       (load_file nested_fs file_ex).2
                       3 0%nat 1 0%float 0%float extraction0 None) x' sink' Hrun)
      as (nested & Hcalls & Hex).
    exists x', sink', nested. split; [reflexivity|]. split; [exact Hcalls | exact Hex].
Defined.

(** C2 (the code departs from the claim): the target TOP is followed in the
    stream by OTHER, which TOP does not reference.  The scan never leaves the
    target: [target_cell_found] is never reset (the ENDSTR case is empty), so
    the boundary of OTHER contributes the triples with polygon id 1. *)
Theorem get_polygons_leaves_target gdsii_real_to_double :
  res_map (λ r, polygons r.1)
    (get_polygons gdsii_real_to_double unrelated_fs (load_file unrelated_fs file_ex).2 1
       0%nat 0 0%float 0%float (extraction0, None))
  = Done [(0, 0, 0); (10, 10, 0); (0, 0, 0); (1, 1, 1); (3, 4, 1)].
Proof. vm_compute. reflexivity. Qed.

(** C3 (the code departs from the claim): a target with no instance and one
    boundary of five coordinate pairs yields three triples, not five: the XY
    loop advances by four 32-bit words, that is by two pairs, so every other
    vertex is skipped.  The triples share the polygon id 0 and the id is
    incremented once. *)
Theorem get_polygons_skips_vertices gdsii_real_to_double :
  res_map (λ r, (polygons r.1, start_id r.1))
    (get_polygons gdsii_real_to_double single_fs (load_file single_fs file_ex).2 1 0%nat 0
       0%float 0%float (extraction0, None))
  = Done ([(0, 0, 0); (10, 10, 0); (0, 0, 0)], 1).
Proof. vm_compute. reflexivity. Qed.

(** X3: on an XY record of [data_length] words the loop of the XY case appends
    one triple per four words: a record of N coordinate pairs (2N words)
    yields (N + 1) / 2 triples. *)
Lemma xy_loop_length bound buffer factor data_length i id polygons polygons' :
  xy_loop bound buffer factor data_length i id polygons = Done polygons' →
  Z.of_nat (length polygons')
  = Z.of_nat (length polygons) + Z.max 0 ((data_length - i + 3) / 4).
Proof.
  revert i polygons. induction bound as [|bound IH]; intros i polygons;
    cbn [xy_loop]; destruct (i <? data_length) eqn:Hi.
  - discriminate.
  - intros [= <-]. apply Z.ltb_ge in Hi.
    assert ((data_length - i + 3) / 4 < 1) by (apply Z.div_lt_upper_bound; lia). lia.
  - apply Z.ltb_lt in Hi.
    destruct (data32 buffer i); [|discriminate].
    destruct (data32 buffer (i + 1)); [|discriminate].
    destruct (scale factor z); [|discriminate].
    destruct (scale factor z0); [|discriminate].
    intros Hrun. apply IH in Hrun. rewrite length_app in Hrun. cbn [length] in Hrun.
    replace (data_length - i + 3) with ((data_length - (i + 4) + 3) + 1 * 4) by lia.
    rewrite Z.div_add by lia.
    assert (0 ≤ (data_length - (i + 4) + 3) / 4) by (apply Z.div_pos; lia). lia.
  - intros [= <-]. apply Z.ltb_ge in Hi.
    assert ((data_length - i + 3) / 4 < 1) by (apply Z.div_lt_upper_bound; lia). lia.
Qed.

Lemma xy_loop_length_witness :
  ∃ polygons', xy_loop 7 xy_buffer 1%float 6 0 7 [] = Done polygons' ∧
    Z.of_nat (length polygons') = 2.
Proof.
  destruct (xy_loop 7 xy_buffer 1%float 6 0 7 []) as [polygons'| |] eqn:Hrun;
    [|vm_compute in Hrun; discriminate..].
  exists polygons'. split; [reflexivity|].
  exact (xy_loop_length _ _ _ _ _ _ _ _ Hrun).
Defined.

(** ** to_gds *)

Lemma byte_range_length contents offset size :
  0 ≤ offset → 0 ≤ size → offset + size ≤ Z.of_nat (length contents) →
  Z.of_nat (length (byte_range contents offset size)) = size.
Proof.
  intros. unfold byte_range. rewrite length_take, length_drop. lia.
Qed.

(** C8: for an entity in the unmaterialized state whose shared source holds
    the bytes of its range, to_gds materializes the entity and appends to the
    destination exactly the [rc_size] bytes that start at [rc_offset] in the
    source file, reporting no error; the entity then owns those bytes and no
    longer refers to the source. *)
Theorem to_gds_round_trip w self c s src out sink :
  heap w !! self = Some c →
  rc_source c = Some s →
  sources w !! s = Some src →
  0 ≤ rc_offset c → 0 ≤ rc_size c →
  rc_offset c + rc_size c ≤ Z.of_nat (length (src_contents src)) →
  ∃ w' c',
    to_gds w self out sink
    = Done (NoError, w',
            out ++ byte_range (src_contents src) (rc_offset c) (rc_size c), sink) ∧
    Z.of_nat (length (byte_range (src_contents src) (rc_offset c) (rc_size c)))
    = rc_size c ∧
    heap w' !! self = Some c' ∧ rc_source c' = None ∧
    rc_data c' = Some (byte_range (src_contents src) (rc_offset c) (rc_size c)) ∧
    rc_size c' = rc_size c.
Proof.
  intros Hc Hs Hsrc Hoff Hsize Hfit.
  pose proof (byte_range_length _ _ _ Hoff Hsize Hfit) as Hlen.
  unfold to_gds. rewrite Hc, Hs, Hsrc.
  unfold offset_read. fold (byte_range (src_contents src) (rc_offset c) (rc_size c)).
  rewrite Hlen, Z.eqb_refl. cbn [negb].
  unfold release_source. rewrite Hsrc.
  assert (Hw : fwrite (Some (byte_range (src_contents src) (rc_offset c) (rc_size c)))
                 (rc_size c) out
               = Done (out ++ byte_range (src_contents src) (rc_offset c) (rc_size c))).
  { unfold fwrite. destruct (rc_size c =? 0) eqn:Hz.
    - apply Z.eqb_eq in Hz. rewrite Hz in *.
      destruct (byte_range (src_contents src) (rc_offset c) 0); [by rewrite app_nil_r|].
      simpl in Hlen. lia.
    - assert (Hle : (Z.to_nat (rc_size c)
                     <=? length (byte_range (src_contents src) (rc_offset c) (rc_size c)))%nat
                    = true)
        by (apply Nat.leb_le; lia).
      rewrite Hle. f_equal. f_equal. apply take_ge. lia. }
  destruct ((src_uses src - 1) mod 2 ^ 64 =? 0); cbn [res_bind]; rewrite Hw; cbn [res_bind];
    eexists _, _; (split; [reflexivity|]); (split; [done|]);
    cbn [heap]; rewrite lookup_insert_eq; done.
Qed.

Lemma to_gds_round_trip_witness :
  ∃ w', to_gds lazy_world 0%nat [] None = Done (NoError, w', [12; 13; 14], None).
Proof.
  destruct (to_gds_round_trip lazy_world 0%nat lazy_cell 0%nat lazy_source [] None)
    as (w' & c' & Hrun & _); [reflexivity | reflexivity | reflexivity | cbn; lia..|].
  exists w'. exact Hrun.
Defined.

(** ** read_rawcells on well-formed libraries *)

(** *** Reading back what [record] wrote *)

Lemma record_length tag dtype payload :
  length (record tag dtype payload) = (4 + length payload)%nat.
Proof. unfold record. by rewrite length_app. Qed.

Lemma gdsii_read_record_written tag dtype payload rest buffer :
  gdsii_read_record (record tag dtype payload ++ rest) buffer
  = inr ([(4 + Z.of_nat (length payload)) / 256; (4 + Z.of_nat (length payload)) mod 256;
          tag; dtype] ++ payload ++ drop (4 + length payload) buffer,
         4 + Z.of_nat (length payload), rest).
Proof.
  unfold record, gdsii_read_record. cbn [app].
  set (len := 4 + Z.of_nat (length payload)).
  assert (Hlen : 256 * (len / 256) + len mod 256 = len) by (symmetry; apply Z.div_mod; lia).
  rewrite Hlen.
  destruct (len <? 4) eqn:Hlt; [apply Z.ltb_lt in Hlt; lia|].
  assert (Hn : Z.to_nat (len - 4) = length payload) by lia.
  rewrite Hn, take_app_length, drop_app_length.
  by rewrite Nat.ltb_irrefl.
Qed.

Lemma until_nul_all name :
  forallb (λ b, negb (b =? 0)) name = true → until_nul name = name.
Proof.
  induction name as [|b name IH]; intros Hv; [done|].
  simpl in *. apply andb_true_iff in Hv as [Hb Hv].
  destruct (b =? 0); [done|]. by rewrite IH.
Qed.

Lemma last_nonzero name :
  name ≠ [] → forallb (λ b, negb (b =? 0)) name = true →
  ∃ k b, length name = S k ∧ name !! k = Some b ∧ b ≠ 0.
Proof.
  intros Hne Hv. destruct (last name) as [b|] eqn:Hlast.
  - exists (pred (length name)), b.
    rewrite last_lookup in Hlast.
    split; [destruct name; done|]. split; [done|].
    apply list_elem_of_lookup_2 in Hlast.
    rewrite forallb_forall in Hv. apply list_elem_of_In in Hlast. apply Hv in Hlast.
    intros ->. done.
  - apply last_None in Hlast. done.
Qed.

Lemma record_name_padded a b c d name stale :
  valid_name name = true →
  record_name ([a; b; c; d] ++ padded name ++ stale) (4 + Z.of_nat (length (padded name)))
  = Some name.
Proof.
  unfold valid_name. intros Hv. apply andb_true_iff in Hv as [Hne Hv].
  apply negb_true_iff, bool_decide_eq_false in Hne.
  destruct (last_nonzero name Hne Hv) as (k & x & Hlen & Hk & Hx).
  unfold record_name, padded.
  destruct (Nat.even (length name)) eqn:Heven.
  - replace (Z.to_nat (4 + Z.of_nat (length name) - 4)) with (S k) by lia.
    cbn [app drop].
    assert (Hlk : ([a; b; c; d] ++ name ++ stale) !! (4 + k)%nat = Some x).
    { rewrite lookup_app_r by (simpl; lia).
      replace (4 + k - length [a; b; c; d])%nat with k by (simpl; lia).
      rewrite lookup_app_l by (apply lookup_lt_Some in Hk; done). done. }
    cbn [app] in Hlk. rewrite Hlk. cbn [default from_option id drop].
    destruct (x =? 0) eqn:Hx0; [apply Z.eqb_eq in Hx0; done|].
    rewrite <- Hlen, drop_0, take_app_length. by rewrite until_nul_all.
  - rewrite length_app. cbn [length].
    replace (Z.to_nat (4 + Z.of_nat (length name + 1) - 4)) with (S (length name)) by lia.
    cbn [app drop].
    assert (Hlk : (a :: b :: c :: d :: (name ++ [0]) ++ stale) !! (4 + length name)%nat = Some 0).
    { change (([a; b; c; d] ++ (name ++ [0]) ++ stale) !! (4 + length name)%nat = Some 0).
      rewrite lookup_app_r by (simpl; lia).
      replace (4 + length name - length [a; b; c; d])%nat with (length name) by (simpl; lia).
      rewrite <- app_assoc. by apply list_lookup_middle. }
    rewrite Hlk. cbn [default from_option id drop Z.eqb].
    rewrite drop_0, <- app_assoc, take_app_length. by rewrite until_nul_all.
Qed.

Lemma alter_lookup_insert (f : RawCell → RawCell) (h : gmap ptr RawCell) p c :
  h !! p = Some c → alter f p h = <[p := f c]> h.
Proof.
  intros Hp. apply map_eq. intros q. destruct (decide (p = q)) as [->|Hne].
  - by rewrite lookup_alter_eq, lookup_insert_eq, Hp.
  - by rewrite lookup_alter_ne, lookup_insert_ne.
Qed.

(** One iteration of the record loop on a record written by [record]. *)
Lemma read_loop_plain_closed n fn src tag dtype payload rest pos buf l :
  plain_tag tag = true → ld_rawcell l = None →
  ∃ buf', read_loop (S n) fn src (record tag dtype payload ++ rest) pos buf l
          = read_loop n fn src rest (pos + Z.of_nat (length (record tag dtype payload))) buf' l.
Proof.
  intros Htag Hnone. eexists. cbn [read_loop].
  rewrite gdsii_read_record_written. cbn [app lookup list_lookup default from_option id].
  rewrite record_length. unfold plain_tag in Htag.
  replace (Z.of_nat (4 + length payload)) with (4 + Z.of_nat (length payload)) by lia.
  destruct (gdsii_record tag); try discriminate; rewrite ?Hnone; reflexivity.
Qed.

Lemma read_loop_sname_closed n fn src name rest pos buf l :
  ld_rawcell l = None →
  ∃ buf', read_loop (S n) fn src (r_SNAME name ++ rest) pos buf l
          = read_loop n fn src rest (pos + Z.of_nat (length (r_SNAME name))) buf' l.
Proof.
  intros Hnone. eexists. unfold r_SNAME. cbn [read_loop].
  rewrite gdsii_read_record_written. cbn [app lookup list_lookup default from_option id].
  rewrite record_length.
  replace (Z.of_nat (4 + length (padded name))) with (4 + Z.of_nat (length (padded name))) by lia.
  change (gdsii_record 18) with SNAME. cbv iota. rewrite Hnone. reflexivity.
Qed.

Section OpenStructure.
Variables (fn : cstring) (src : nat).
Variables (result : gmap cstring ptr) (next : ptr) (uses : Z) (p : ptr).

Lemma read_loop_plain_open n tag dtype payload rest pos buf h c :
  plain_tag tag = true → h !! p = Some c →
  ∃ buf', read_loop (S n) fn src (record tag dtype payload ++ rest) pos buf
            (mkLoad result h next uses (Some p))
          = read_loop n fn src rest (pos + Z.of_nat (length (record tag dtype payload))) buf'
              (mkLoad result
                 (<[p := mkRawCell (rc_name c) (rc_source c) (rc_offset c) (rc_data c)
                          (rc_size c + Z.of_nat (length (record tag dtype payload)))
                          (rc_dependencies c) (rc_filename c)]> h)
                 next uses (Some p)).
Proof.
  intros Htag Hp. eexists. cbn [read_loop].
  rewrite gdsii_read_record_written. cbn [app lookup list_lookup default from_option id].
  rewrite record_length. unfold plain_tag in Htag.
  replace (Z.of_nat (4 + length payload)) with (4 + Z.of_nat (length payload)) by lia.
  destruct (gdsii_record tag); try discriminate;
    cbn [ld_rawcell ld_result ld_heap ld_next ld_uses]; unfold add_size;
    rewrite (alter_lookup_insert _ _ _ _ Hp); reflexivity.
Qed.

Lemma read_loop_sname_open n name rest pos buf h c :
  valid_name name = true → h !! p = Some c →
  ∃ buf', read_loop (S n) fn src (r_SNAME name ++ rest) pos buf
            (mkLoad result h next uses (Some p))
          = read_loop n fn src rest (pos + Z.of_nat (length (r_SNAME name))) buf'
              (mkLoad result
                 (<[p := mkRawCell (rc_name c) (rc_source c) (rc_offset c) (rc_data c)
                          (rc_size c + Z.of_nat (length (r_SNAME name)))
                          (rc_dependencies c ++ [Unresolved name]) (rc_filename c)]> h)
                 next uses (Some p)).
Proof.
  intros Hname Hp. eexists. unfold r_SNAME. cbn [read_loop].
  rewrite gdsii_read_record_written. rewrite record_length.
  replace (Z.of_nat (4 + length (padded name))) with (4 + Z.of_nat (length (padded name))) by lia.
  rewrite (record_name_padded _ _ _ _ _ _ Hname).
  cbn [app lookup list_lookup default from_option id].
  change (gdsii_record 18) with SNAME. cbv iota.
  cbn [ld_rawcell ld_result ld_heap ld_next ld_uses]. unfold add_size.
  rewrite (alter_lookup_insert _ _ _ _ Hp).
  rewrite (alter_lookup_insert _ _ _ _ (lookup_insert_eq _ _ _)).
  rewrite insert_insert_eq. reflexivity.
Qed.

Lemma read_loop_body body : ∀ n tail pos buf h c,
  forallb valid_element body = true → h !! p = Some c →
  (length (concat (map write_element body) ++ tail) < n)%nat →
  ∃ n' buf', (length tail < n')%nat ∧
    read_loop n fn src (concat (map write_element body) ++ tail) pos buf
      (mkLoad result h next uses (Some p))
    = read_loop n' fn src tail
        (pos + Z.of_nat (length (concat (map write_element body)))) buf'
        (mkLoad result
           (<[p := mkRawCell (rc_name c) (rc_source c) (rc_offset c) (rc_data c)
                    (rc_size c + Z.of_nat (length (concat (map write_element body))))
                    (rc_dependencies c ++ map Unresolved (references body))
                    (rc_filename c)]> h)
           next uses (Some p)).
Proof.
  induction body as [|e body IH]; intros n tail pos buf h c Hvalid Hp Hn.
  - exists n, buf. split; [done|]. cbn [map concat app length references omap].
    rewrite !Z.add_0_r, app_nil_r. destruct c. cbn. by rewrite insert_id.
  - cbn [forallb] in Hvalid. apply andb_true_iff in Hvalid as [He Hvalid].
    cbn [map concat] in Hn |- *. rewrite <- app_assoc in Hn |- *.
    rewrite length_app in Hn.
    destruct n as [|n]; [lia|].
    destruct e as [name|tag dtype payload]; cbn [write_element valid_element] in *.
    + destruct (read_loop_sname_open n name (concat (map write_element body) ++ tail)
                  pos buf h c He Hp) as (buf1 & ->).
      assert (Hlen : (4 ≤ length (r_SNAME name))%nat)
        by (unfold r_SNAME; rewrite record_length; lia).
      edestruct (IH n tail) as (n' & buf' & Hn' & ->);
        [done | apply lookup_insert_eq | lia |].
      exists n', buf'. split; [done|]. rewrite insert_insert_eq.
      cbn [rc_name rc_source rc_offset rc_data rc_size rc_dependencies rc_filename
           references omap].
      rewrite length_app, <- app_assoc. cbn [app].
      change (references (Reference name :: body)) with (name :: references body).
      cbn [map]. by rewrite Nat2Z.inj_add, !Z.add_assoc.
    + destruct (read_loop_plain_open n tag dtype payload
                  (concat (map write_element body) ++ tail) pos buf h c He Hp) as (buf1 & ->).
      assert (Hlen : (4 ≤ length (record tag dtype payload))%nat)
        by (rewrite record_length; lia).
      edestruct (IH n tail) as (n' & buf' & Hn' & ->);
        [done | apply lookup_insert_eq | lia |].
      exists n', buf'. split; [done|]. rewrite insert_insert_eq.
      cbn [rc_name rc_source rc_offset rc_data rc_size rc_dependencies rc_filename
           references omap].
      rewrite length_app.
      change (references (Plain tag dtype payload :: body)) with (references body).
      by rewrite Nat2Z.inj_add, !Z.add_assoc.
Qed.
End OpenStructure.



Lemma assign_filename_long fn : long_name fn → assign_filename fn = Done fn.
Proof.
  unfold long_name, assign_filename. intros Hlong.
  by rewrite (leb_correct_conv 15 (length fn)) by lia.
Qed.

Lemma read_loop_bgnstr n fn src payload rest pos buf result h next uses :
  long_name fn →
  ∃ buf', read_loop (S n) fn src (record 5 2 payload ++ rest) pos buf
            (mkLoad result h next uses None)
          = read_loop n fn src rest (pos + Z.of_nat (length (record 5 2 payload))) buf'
              (mkLoad result
                 (<[next := mkRawCell None (Some src) pos None
                              (Z.of_nat (length (record 5 2 payload))) [] fn]> h)
                 (S next) ((uses + 1) mod 2 ^ 64) (Some next)).
Proof.
  intros Hlong. eexists. cbn [read_loop]. rewrite gdsii_read_record_written.
  cbn [app lookup list_lookup default from_option id].
  change (gdsii_record 5) with BGNSTR. cbv iota.
  rewrite (assign_filename_long fn Hlong). cbn [res_bind].
  cbn [ld_rawcell ld_result ld_heap ld_next ld_uses]. rewrite record_length.
  replace (Z.of_nat (4 + length payload)) with (4 + Z.of_nat (length payload)) by lia.
  replace (pos + (4 + Z.of_nat (length payload)) - (4 + Z.of_nat (length payload)))
    with pos by lia.
  reflexivity.
Qed.

Lemma read_loop_strname n fn src name rest pos buf result h next uses p c :
  valid_name name = true → h !! p = Some c →
  ∃ buf', read_loop (S n) fn src (r_STRNAME name ++ rest) pos buf
            (mkLoad result h next uses (Some p))
          = read_loop n fn src rest (pos + Z.of_nat (length (r_STRNAME name))) buf'
              (mkLoad (<[name := p]> result)
                 (<[p := mkRawCell (Some name) (rc_source c) (rc_offset c) (rc_data c)
                          (rc_size c + Z.of_nat (length (r_STRNAME name)))
                          (rc_dependencies c) (rc_filename c)]> h)
                 next uses (Some p)).
Proof.
  intros Hname Hp. eexists. unfold r_STRNAME. cbn [read_loop].
  rewrite gdsii_read_record_written. rewrite record_length.
  replace (Z.of_nat (4 + length (padded name))) with (4 + Z.of_nat (length (padded name))) by lia.
  rewrite (record_name_padded _ _ _ _ _ _ Hname).
  cbn [app lookup list_lookup default from_option id].
  change (gdsii_record 6) with STRNAME. cbv iota.
  cbn [ld_rawcell ld_result ld_heap ld_next ld_uses]. unfold add_size.
  rewrite (alter_lookup_insert _ _ _ _ Hp).
  rewrite (alter_lookup_insert _ _ _ _ (lookup_insert_eq _ _ _)).
  rewrite insert_insert_eq. reflexivity.
Qed.

Lemma read_loop_endstr n fn src rest pos buf result h next uses p c :
  h !! p = Some c →
  ∃ buf', read_loop (S n) fn src (r_ENDSTR ++ rest) pos buf
            (mkLoad result h next uses (Some p))
          = read_loop n fn src rest (pos + Z.of_nat (length r_ENDSTR)) buf'
              (mkLoad result
                 (<[p := mkRawCell (rc_name c) (rc_source c) (rc_offset c) (rc_data c)
                          (rc_size c + Z.of_nat (length r_ENDSTR))
                          (rc_dependencies c) (rc_filename c)]> h)
                 next uses None).
Proof.
  intros Hp. eexists. unfold r_ENDSTR. cbn [read_loop].
  rewrite gdsii_read_record_written.
  cbn [app lookup list_lookup default from_option id].
  change (gdsii_record 7) with ENDSTR. cbv iota.
  cbn [ld_rawcell ld_result ld_heap ld_next ld_uses]. unfold add_size.
  rewrite (alter_lookup_insert _ _ _ _ Hp). reflexivity.
Qed.

Lemma read_loop_structure s n fn src tail pos buf result h next uses :
  long_name fn →
  valid_structure s = true →
  (length (write_structure s ++ tail) < n)%nat →
  ∃ n' buf', (length tail < n')%nat ∧
    read_loop n fn src (write_structure s ++ tail) pos buf (mkLoad result h next uses None)
    = read_loop n' fn src tail (pos + Z.of_nat (length (write_structure s))) buf'
        (mkLoad (<[sd_name s := next]> result) (<[next := loaded_cell fn src pos s]> h)
           (S next) ((uses + 1) mod 2 ^ 64) None).
Proof.
  unfold valid_structure. intros Hlong Hvalid Hn.
  apply andb_true_iff in Hvalid as [Hname Hbody].
  unfold loaded_cell, write_structure in *.
  rewrite !length_app in Hn. rewrite <- !app_assoc.
  pose proof (record_length 5 2 (sd_begin s)) as Hl1.
  assert (Hl2 : (4 ≤ length (r_STRNAME (sd_name s)))%nat)
    by (unfold r_STRNAME; rewrite record_length; lia).
  assert (Hl3 : length r_ENDSTR = 4%nat) by done.
  destruct n as [|n]; [lia|].
  destruct (read_loop_bgnstr n fn src (sd_begin s)
              (r_STRNAME (sd_name s) ++ concat (map write_element (sd_body s))
               ++ r_ENDSTR ++ tail) pos buf result h next uses Hlong) as (buf1 & ->).
  destruct n as [|n]; [lia|].
  edestruct (read_loop_strname n fn src (sd_name s)) as (buf2 & ->);
    [done | apply lookup_insert_eq |].
  rewrite insert_insert_eq.
  edestruct (read_loop_body fn src) as (n3 & buf3 & Hn3 & ->);
    [done | apply lookup_insert_eq | | ].
  { rewrite !length_app. lia. }
  rewrite insert_insert_eq. rewrite length_app in Hn3.
  destruct n3 as [|n3]; [lia|].
  edestruct (read_loop_endstr n3 fn src) as (buf4 & ->); [apply lookup_insert_eq|].
  rewrite insert_insert_eq.
  exists n3, buf4. split; [lia|].
  cbn [rc_name rc_source rc_offset rc_data rc_size rc_dependencies rc_filename app].
  rewrite !length_app, !Nat2Z.inj_add, !Z.add_assoc. reflexivity.
Qed.

Lemma read_loop_structures structures : ∀ n fn src tail pos buf l,
  long_name fn →
  forallb valid_structure structures = true →
  ld_rawcell l = None →
  (length (concat (map write_structure structures) ++ tail) < n)%nat →
  ∃ n' buf', (length tail < n')%nat ∧
    read_loop n fn src (concat (map write_structure structures) ++ tail) pos buf l
    = read_loop n' fn src tail
        (pos + Z.of_nat (length (concat (map write_structure structures)))) buf'
        (load_structures fn src pos structures l).
Proof.
  induction structures as [|s structures IH];
    intros n fn src tail pos buf l Hlong Hvalid Hl Hn.
  - exists n, buf. split; [done|]. cbn. by rewrite Z.add_0_r.
  - cbn [forallb] in Hvalid. apply andb_true_iff in Hvalid as [Hs Hvalid].
    cbn [map concat load_structures] in Hn |- *. rewrite <- app_assoc in Hn |- *.
    destruct l as [result h next uses rawcell]. cbn in Hl. subst rawcell.
    destruct (read_loop_structure s n fn src
                (concat (map write_structure structures) ++ tail) pos buf result h next uses
                Hlong Hs Hn) as (n1 & buf1 & Hn1 & ->).
    edestruct (IH n1 fn src tail) as (n' & buf' & Hn' & ->); [done | done | done | done |].
    exists n', buf'. split; [done|].
    cbn [ld_result ld_heap ld_next ld_uses].
    by rewrite length_app, Nat2Z.inj_add, Z.add_assoc.
Qed.

Lemma read_loop_prelude prelude : ∀ n fn src tail pos buf l,
  forallb valid_element prelude = true →
  ld_rawcell l = None →
  (length (concat (map write_element prelude) ++ tail) < n)%nat →
  ∃ n' buf', (length tail < n')%nat ∧
    read_loop n fn src (concat (map write_element prelude) ++ tail) pos buf l
    = read_loop n' fn src tail
        (pos + Z.of_nat (length (concat (map write_element prelude)))) buf' l.
Proof.
  induction prelude as [|e prelude IH]; intros n fn src tail pos buf l Hvalid Hl Hn.
  - exists n, buf. split; [done|]. cbn. by rewrite Z.add_0_r.
  - cbn [forallb] in Hvalid. apply andb_true_iff in Hvalid as [He Hvalid].
    cbn [map concat] in Hn |- *. rewrite <- app_assoc in Hn |- *.
    rewrite length_app in Hn.
    destruct n as [|n]; [lia|].
    destruct e as [name|tag dtype payload]; cbn [write_element valid_element] in *.
    + destruct (read_loop_sname_closed n fn src name
                  (concat (map write_element prelude) ++ tail) pos buf l Hl) as (buf1 & ->).
      assert (Hlen : (4 ≤ length (r_SNAME name))%nat)
        by (unfold r_SNAME; rewrite record_length; lia).
      edestruct (IH n fn src tail) as (n' & buf' & Hn' & ->); [done | done | lia |].
      exists n', buf'. split; [done|].
      by rewrite length_app, Nat2Z.inj_add, Z.add_assoc.
    + destruct (read_loop_plain_closed n fn src tag dtype payload
                  (concat (map write_element prelude) ++ tail) pos buf l He Hl) as (buf1 & ->).
      assert (Hlen : (4 ≤ length (record tag dtype payload))%nat)
        by (rewrite record_length; lia).
      edestruct (IH n fn src tail) as (n' & buf' & Hn' & ->); [done | done | lia |].
      exists n', buf'. split; [done|].
      by rewrite length_app, Nat2Z.inj_add, Z.add_assoc.
Qed.


Lemma load_structures_next structures : ∀ fn src pos l,
  ld_next (load_structures fn src pos structures l) = (ld_next l + length structures)%nat.
Proof.
  induction structures as [|s structures IH]; intros; cbn [load_structures length]; [lia|].
  rewrite IH. cbn. lia.
Qed.

Lemma load_structures_rawcell structures : ∀ fn src pos l,
  ld_rawcell l = None → ld_rawcell (load_structures fn src pos structures l) = None.
Proof.
  induction structures as [|s structures IH]; intros; cbn [load_structures]; [done|].
  by apply IH.
Qed.

Lemma load_structures_result_other structures : ∀ fn src pos l nm,
  nm ∉ map sd_name structures →
  ld_result (load_structures fn src pos structures l) !! nm = ld_result l !! nm.
Proof.
  induction structures as [|s structures IH]; intros fn src pos l nm Hnm;
    cbn [load_structures]; [done|].
  cbn [map] in Hnm. apply not_elem_of_cons in Hnm as [Hne Hnm].
  rewrite IH by done. cbn. by rewrite lookup_insert_ne.
Qed.

Lemma load_structures_result structures : ∀ fn src pos l k s,
  NoDup (map sd_name structures) →
  structures !! k = Some s →
  ld_result (load_structures fn src pos structures l) !! sd_name s = Some (ld_next l + k)%nat.
Proof.
  induction structures as [|s0 structures IH]; intros fn src pos l k s Hnodup Hk; [done|].
  cbn [map] in Hnodup. apply NoDup_cons in Hnodup as [Hfresh Hnodup].
  cbn [load_structures]. destruct k as [|k].
  - injection Hk as ->. rewrite load_structures_result_other by done.
    cbn. rewrite lookup_insert_eq. f_equal. lia.
  - rewrite (IH _ _ _ _ k s Hnodup Hk). cbn. f_equal. lia.
Qed.

Lemma load_structures_heap_old structures : ∀ fn src pos l p,
  (p < ld_next l)%nat →
  ld_heap (load_structures fn src pos structures l) !! p = ld_heap l !! p.
Proof.
  induction structures as [|s structures IH]; intros fn src pos l p Hp;
    cbn [load_structures]; [done|].
  rewrite IH by (cbn; lia). cbn. rewrite lookup_insert_ne by lia. done.
Qed.

Lemma load_structures_heap structures : ∀ fn src pos l k s,
  structures !! k = Some s →
  ∃ off, ld_heap (load_structures fn src pos structures l) !! (ld_next l + k)%nat
         = Some (loaded_cell fn src off s).
Proof.
  induction structures as [|s0 structures IH]; intros fn src pos l k s Hk; [done|].
  cbn [load_structures]. destruct k as [|k].
  - injection Hk as ->. exists pos. rewrite load_structures_heap_old by (cbn; lia).
    cbn. rewrite Nat.add_0_r. apply lookup_insert_eq.
  - edestruct (IH fn src (pos + Z.of_nat (length (write_structure s0)))
                 (mkLoad (<[sd_name s0 := ld_next l]> (ld_result l))
                    (<[ld_next l := loaded_cell fn src pos s0]> (ld_heap l))
                    (S (ld_next l)) ((ld_uses l + 1) mod 2 ^ 64) None) k s Hk) as (off & Hoff).
    exists off. cbn [ld_next] in Hoff. by replace (ld_next l + S k)%nat with (S (ld_next l) + k)%nat by lia.
Qed.

Lemma load_structures_size structures : ∀ fn src pos l,
  NoDup (map sd_name structures) →
  (∀ nm, nm ∈ map sd_name structures → ld_result l !! nm = None) →
  size (ld_result (load_structures fn src pos structures l))
  = (size (ld_result l) + length structures)%nat.
Proof.
  induction structures as [|s structures IH]; intros fn src pos l Hnodup Hfresh;
    cbn [load_structures length]; [lia|].
  cbn [map] in Hnodup, Hfresh. apply NoDup_cons in Hnodup as [Hs Hnodup].
  rewrite IH; [|done|].
  - cbn. rewrite map_size_insert_None; [lia|]. apply Hfresh. left.
  - intros nm Hnm. cbn. rewrite lookup_insert_ne; [apply Hfresh; by right|].
    intros <-. done.
Qed.


Lemma load_structures_ok fn src pos structures :
  NoDup (map sd_name structures) →
  loaded_ok fn src structures
    (ld_result (load_structures fn src pos structures (mkLoad ∅ ∅ 0%nat 0 None)))
    (ld_heap (load_structures fn src pos structures (mkLoad ∅ ∅ 0%nat 0 None))).
Proof.
  intros Hnodup.
  set (l0 := mkLoad ∅ ∅ 0%nat 0 None).
  assert (Hfind : ∀ nm p, ld_result (load_structures fn src pos structures l0) !! nm = Some p →
            ∃ s, structures !! p = Some s ∧ sd_name s = nm).
  { intros nm p Hlk.
    destruct (decide (nm ∈ map sd_name structures)) as [Hin|Hout].
    - apply list_elem_of_fmap in Hin as (s & -> & Hs).
      apply list_elem_of_lookup in Hs as (k & Hk).
      rewrite (load_structures_result _ _ _ _ _ _ _ Hnodup Hk) in Hlk.
      injection Hlk as <-. by exists s.
    - rewrite load_structures_result_other in Hlk by done. done. }
  split.
  - rewrite load_structures_size; [done|done|]. intros. apply lookup_empty.
  - intros s Hs. apply list_elem_of_lookup in Hs as (k & Hk).
    rewrite (load_structures_result _ _ _ _ _ _ _ Hnodup Hk). by eexists.
  - intros nm p Hlk. destruct (Hfind nm p Hlk) as (s & Hp & Hnm).
    destruct (load_structures_heap structures fn src pos l0 p s Hp) as (off & Hoff).
    exists s, off. split; [by eapply list_elem_of_lookup_2|]. split; [done|]. exact Hoff.
  - intros nm1 nm2 p H1 H2.
    destruct (Hfind nm1 p H1) as (s1 & Hp1 & <-), (Hfind nm2 p H2) as (s2 & Hp2 & <-).
    by simplify_eq.
Qed.










Lemma elem_of_references name body :
  name ∈ references body ↔ Reference name ∈ body.
Proof.
  unfold references. rewrite list_elem_of_omap. split.
  - intros ([nm|tag dtype payload] & Hin & Heq); [|done]. by injection Heq as ->.
  - intros Hin. by exists (Reference name).
Qed.


(** The record loop does not get past the first BGNSTR record when the file
    name fits the local buffer of a [std::string]. *)
Lemma read_rawcells_faults (fuel : nat) (fs : gmap cstring (list Z)) (filename : cstring) prelude
    structures padding error_code sink :
  (length filename ≤ 15)%nat →
  fs !! filename = Some (write_library prelude structures ++ padding) →
  well_formed prelude structures →
  structures ≠ [] →
  read_rawcells fuel fs filename error_code sink = Fault.
Proof.
  intros Hshort Hfile (Hprelude & _ & _) Hsome.
  destruct structures as [|s structures]; [done|].
  unfold read_rawcells. rewrite Hfile.
  unfold write_library. cbn [map concat]. unfold write_structure.
  rewrite <- !app_assoc.
  edestruct (read_loop_prelude prelude) as (n1 & buf1 & Hn1 & ->); [done | done | |].
  { rewrite !length_app. lia. }
  destruct n1 as [|n1]; [lia|].
  cbn [read_loop]. rewrite gdsii_read_record_written.
  cbn [app lookup list_lookup default from_option id].
  change (gdsii_record 5) with BGNSTR. cbv iota.
  unfold assign_filename. by rewrite (leb_correct (length filename) 15 Hshort).
Qed.

(** C6 (the code departs from the claim): for a well-formed file that holds a
    structure and is opened under a name of at most 15 bytes, read_rawcells
    returns no map.  At the first BGNSTR record it assigns the file name to
    the [std::string] member of an entity that allocate_clear returned and no
    constructor initialised; a name that short is copied through the member's
    null data pointer. *)
Theorem read_rawcells_short_name (fuel : nat) (fs : gmap cstring (list Z)) (filename : cstring)
    prelude structures padding error_code sink :
  (length filename ≤ 15)%nat →
  fs !! filename = Some (write_library prelude structures ++ padding) →
  well_formed prelude structures →
  structures ≠ [] →
  read_rawcells fuel fs filename error_code sink = Fault.
Proof. apply read_rawcells_faults. Qed.

Lemma read_rawcells_short_name_witness :
  read_rawcells 0 short_fs short_ex (Some NoError) None = Fault.
Proof.
  apply (read_rawcells_short_name 0 short_fs short_ex prelude_ex nested_structures []).
  - cbn. lia.
  - unfold short_fs. rewrite lookup_singleton_eq. by rewrite app_nil_r.
  - split; [vm_compute; reflexivity|]. split; [vm_compute; reflexivity|].
    apply (bool_decide_unpack _). vm_compute. exact I.
  - discriminate.
Defined.

(** C7 (the code departs from the claim): for a well-formed file in which a
    structure references a name that no structure of the file carries, opened
    under a name of at most 15 bytes, read_rawcells returns no map and reports
    no MissingReference: it faults at the first BGNSTR record, before any
    reference is read (the defect of C6). *)
Theorem read_rawcells_missing_reference_short_name (fuel : nat)
    (fs : gmap cstring (list Z))
    (filename : cstring) prelude structures padding error_code sink s name :
  (length filename ≤ 15)%nat →
  fs !! filename = Some (write_library prelude structures ++ padding) →
  well_formed prelude structures →
  s ∈ structures → Reference name ∈ sd_body s → name ∉ map sd_name structures →
  read_rawcells fuel fs filename error_code sink = Fault.
Proof.
  intros Hshort Hfile Hwf Hs _ _.
  apply (read_rawcells_faults fuel fs filename prelude structures padding); try done.
  intros ->. by apply elem_of_nil in Hs.
Qed.

Lemma read_rawcells_missing_reference_short_name_witness :
  read_rawcells 0 short_dangling_fs short_ex (Some NoError) None = Fault.
Proof.
  apply (read_rawcells_missing_reference_short_name 0 short_dangling_fs short_ex prelude_ex
           dangling_structures [] (Some NoError) None dangling_top (ascii "GONE")).
  - cbn. lia.
  - unfold short_dangling_fs. rewrite lookup_singleton_eq. by rewrite app_nil_r.
  - split; [vm_compute; reflexivity|]. split; [vm_compute; reflexivity|].
    apply (bool_decide_unpack _). vm_compute. exact I.
  - left.
  - cbn. set_solver.
  - apply (bool_decide_unpack _). vm_compute. exact I.
Defined.





(** *** Loading, then writing out *)


Lemma load_structures_uses structures : ∀ fn src pos l,
  ld_uses (load_structures fn src pos structures l)
  = (ld_uses l + Z.of_nat (length structures)) mod 2 ^ 64 ∨
  (structures = [] ∧ ld_uses (load_structures fn src pos structures l) = ld_uses l).
Proof.
  induction structures as [|s structures IH]; intros fn src pos l; [by right|].
  left. cbn [load_structures length].
  destruct (IH fn src (pos + Z.of_nat (length (write_structure s)))
              (mkLoad (<[sd_name s := ld_next l]> (ld_result l))
                 (<[ld_next l := loaded_cell fn src pos s]> (ld_heap l))
                 (S (ld_next l)) ((ld_uses l + 1) mod 2 ^ 64) None)) as [->|[-> ->]];
    cbn [ld_uses length].
  - rewrite Zplus_mod_idemp_l. f_equal. lia.
  - f_equal.
Qed.







(** ** read_rawcells on files that end before ENDLIB *)

(** The inner loop of the teardown never advances: on a pending name its
    second turn frees the name the first turn freed. *)
Lemma free_names_loop_double_free fuel dependencies i name :
  dependencies !! i = Some (Unresolved name) →
  free_names_loop (S (S fuel)) dependencies i [] = Fault.
Proof.
  intros Hi. cbn [free_names_loop]. rewrite Hi.
  rewrite bool_decide_eq_false_2 by apply not_elem_of_nil.
  rewrite bool_decide_eq_true_2; [done|left].
Qed.

(** With less fuel it does not get that far; it never leaves the loop. *)
Lemma free_names_loop_never_done fuel dependencies i name : ∀ freed,
  dependencies !! i = Some (Unresolved name) →
  is_done (free_names_loop fuel dependencies i freed) = false.
Proof.
  induction fuel as [|fuel IH]; intros freed Hi; cbn [free_names_loop]; rewrite Hi; [done|].
  destruct (bool_decide (i ∈ freed)); [done|]. by apply IH.
Qed.

(** On an empty dependency list it stops at once. *)
Lemma free_names_loop_empty fuel : free_names_loop fuel [] 0 [] = Done tt.
Proof. by destruct fuel. Qed.

Lemma is_done_bind {A B} (r : Res A) (k : A → Res B) :
  is_done r = false → is_done (res_bind r k) = false.
Proof. by destruct r. Qed.

Lemma teardown_item_faults fuel w nm p c name :
  heap w !! p = Some c → rc_dependencies c !! 0%nat = Some (Unresolved name) →
  teardown_item (S (S fuel)) (Done w) (nm, p) = Fault.
Proof.
  intros Hp Hdep. unfold teardown_item. cbn [res_bind snd]. rewrite Hp.
  by rewrite (free_names_loop_double_free _ _ _ _ Hdep).
Qed.

Lemma teardown_item_never_done fuel w nm p c name :
  heap w !! p = Some c → rc_dependencies c !! 0%nat = Some (Unresolved name) →
  is_done (teardown_item fuel (Done w) (nm, p)) = false.
Proof.
  intros Hp Hdep. unfold teardown_item. cbn [res_bind snd]. rewrite Hp.
  pose proof (free_names_loop_never_done fuel _ _ _ [] Hdep) as Hnever.
  by destruct (free_names_loop fuel (rc_dependencies c) 0 []).
Qed.

(** C5 (the code departs from the claim): the file ends after a structure
    that references another one, before any ENDLIB record.  The teardown does
    not complete: the loop that frees the pending names of an entity neither
    advances its index nor shrinks the list, so with a non-empty dependency
    list it never exits by itself, and its second turn frees again the name
    its first turn freed, a double free.  Whatever the fuel, no map, empty or
    not, is returned and InvalidFile is never reported; two turns of the loop
    reach the fault. *)
Theorem read_rawcells_teardown_double_free fuel error_code sink :
  is_done (read_rawcells fuel truncated_fs file_ex error_code sink) = false ∧
  read_rawcells (S (S fuel)) truncated_fs file_ex error_code sink = Fault.
Proof.
  split; unfold read_rawcells;
    (destruct (truncated_fs !! file_ex) as [bytes|] eqn:Hfile; vm_compute in Hfile;
       [|discriminate]);
    injection Hfile as <-;
    match goal with |- context [read_loop ?n ?f ?s ?i ?p ?b ?l] =>
      destruct (read_loop n f s i p b l) as [[l0|err l0]| |] eqn:Hloop;
      vm_compute in Hloop; try discriminate Hloop end;
    injection Hloop as <- <-; cbn [res_bind];
    match goal with |- context [map_to_list ?m] =>
      let items := eval vm_compute in (map_to_list m) in
      change (map_to_list m) with items end;
    cbn [foldl].
  - apply is_done_bind. eapply teardown_item_never_done; [vm_compute|]; reflexivity.
  - erewrite teardown_item_faults; [done | vm_compute; reflexivity | reflexivity].
Qed.

(** When no entity has a pending name the teardown completes: the map comes
    back empty, the entity is cleared, the source is closed and InvalidFile is
    reported. *)
Lemma read_rawcells_teardown_without_references :
  res_map (λ r, (map_to_list (ld_map r.1), ld_error_code r.1,
                 heap (ld_world r.1) !! 0%nat, map_to_list (sources (ld_world r.1)), r.2))
    (read_rawcells 0 truncated_plain_fs file_ex (Some NoError) (Some []))
  = Done ([], Some InvalidFile, Some (mkRawCell None None 0 None 0 [] file_ex), [],
          Some [InvalidGdsiiFile file_ex]).
Proof. vm_compute. reflexivity. Qed.

(** ** The diagnostic sink *)

Section SinkScan.
Variable gdsii_real_to_double : Z → float.
Variable h : gmap ptr RawCell.
Variable fuel : nat.
Variable self : ptr.
Variable name : option cstring.
Variable depth : Z.
Variable unit : float.
Variable recurse : ptr → float → Extraction * Sink → Res (Extraction * Sink).
Hypothesis recurse_sink : ∀ ref tol x s1 s2,
  res_map fst (recurse ref tol (x, s1)) = res_map fst (recurse ref tol (x, s2)).

Lemma scan_loop_sink n s x s1 s2 :
  res_map fst (scan_loop gdsii_real_to_double h fuel self name depth unit recurse n s (x, s1))
  = res_map fst (scan_loop gdsii_real_to_double h fuel self name depth unit recurse n s (x, s2)).
Proof.
  revert s x s1 s2. induction n as [|n IH]; intros s x s1 s2; [done|].
  cbn [scan_loop input buffer factor tolerance target_cell_found found_polygon].
  destruct (gdsii_read_record (input s) (buffer s)) as [err|[[buf0 rl] rest]]; [done|].
  destruct (swap_payload buf0 rl) as [dl buf].
  destruct (gdsii_record (default 0 (buf !! 2%nat)));
    repeat first
      [ done | apply IH
      | match goal with
        | |- context [recurse ?r ?t (?y, s1)] =>
          let H := fresh in
          pose proof (recurse_sink r t y s1 s2) as H;
          destruct (recurse r t (y, s1)) as [[? ?]| |];
          destruct (recurse r t (y, s2)) as [[? ?]| |];
          cbn [res_bind res_map fst] in H |- *; first [discriminate H | done | injection H as ->]
        | |- context [data64 buf ?i] => destruct (data64 buf i)
        | |- context [match name with _ => _ end] => destruct name
        | |- context [strncmp_eq ?a ?b ?c] => destruct (strncmp_eq a b c)
        | |- context [target_cell_found s && ?b] => destruct (target_cell_found s && b)
        | |- context [if target_cell_found s then _ else _] => destruct (target_cell_found s)
        | |- context [if found_polygon s then _ else _] => destruct (found_polygon s)
        | |- context [if start_id ?y <? ?b then _ else _] => destruct (start_id y <? b)
        | |- context [get_dependencies ?f h true self ∅] =>
          destruct (get_dependencies f h true self ∅); cbn [res_bind res_map]
        | |- context [str_at ?b] => destruct (str_at b)
        | |- context [match ?m !! ?k with _ => _ end] => destruct (m !! k)
        | |- context [xy_loop ?a ?b ?c ?d ?e ?f ?g] =>
          destruct (xy_loop a b c d e f g); cbn [res_bind res_map]
        end ].
Qed.
End SinkScan.

Lemma get_polygons_sink r2d fs h fuel self depth unit tol x s1 s2 :
  res_map fst (get_polygons r2d fs h fuel self depth unit tol (x, s1))
  = res_map fst (get_polygons r2d fs h fuel self depth unit tol (x, s2)).
Proof.
  revert self depth tol x s1 s2. induction fuel as [|fuel IH]; intros; [done|].
  cbn [get_polygons]. destruct (h !! self) as [c|]; [|done].
  destruct (fs !! rc_filename c) as [bytes|]; [|done].
  apply scan_loop_sink. intros. apply IH.
Qed.

Lemma resolve_loop_sink bound result deps i ec s1 s2 :
  res_map fst (resolve_loop bound result deps i ec s1)
  = res_map fst (resolve_loop bound result deps i ec s2).
Proof.
  revert deps i ec s1 s2. induction bound as [|bound IH]; intros deps i ec s1 s2.
  - simpl. by destruct (deps !! i).
  - simpl. destruct (deps !! i) as [[nm|q]|]; [|done..].
    destruct (result !! nm) as [rawcell|]; [|apply IH].
    destruct (bool_decide _); apply IH.
Qed.

Lemma resolve_item_sink result acc1 acc2 item :
  res_map fst acc1 = res_map fst acc2 →
  res_map fst (resolve_item result acc1 item) = res_map fst (resolve_item result acc2 item).
Proof.
  intros Hacc. unfold resolve_item.
  destruct acc1 as [[[h1 ec1] s1]| |], acc2 as [[[h2 ec2] s2]| |]; simpl in Hacc; try done.
  injection Hacc as -> ->. simpl.
  destruct (h2 !! item.2) as [c|]; [|done].
  pose proof (resolve_loop_sink (length (rc_dependencies c)) result (rc_dependencies c) 0 ec2 s1 s2) as H.
  destruct (resolve_loop _ _ _ _ _ s1) as [[[d1 e1] t1]| |],
           (resolve_loop _ _ _ _ _ s2) as [[[d2 e2] t2]| |]; simpl in H |- *; try done.
  by injection H as -> ->.
Qed.

Lemma resolve_items_sink result items acc1 acc2 :
  res_map fst acc1 = res_map fst acc2 →
  res_map fst (foldl (resolve_item result) acc1 items)
  = res_map fst (foldl (resolve_item result) acc2 items).
Proof.
  revert acc1 acc2. induction items as [|item items IH]; intros acc1 acc2 Hacc; [done|].
  simpl. apply IH. by apply resolve_item_sink.
Qed.

Lemma read_rawcells_sink fuel fs filename ec s1 s2 :
  res_map fst (read_rawcells fuel fs filename ec s1)
  = res_map fst (read_rawcells fuel fs filename ec s2).
Proof.
  unfold read_rawcells. destruct (fs !! filename) as [bytes|]; [|done].
  destruct (read_loop _ _ _ _ _ _ _) as [[l|err l]| |]; cbn [res_bind res_map]; try done.
  - pose proof (resolve_items_sink (ld_result l) (map_to_list (ld_result l))
                  (Done (ld_heap l, ec, s1)) (Done (ld_heap l, ec, s2)) eq_refl) as H.
    destruct (foldl _ (Done (_, _, s1)) _) as [[[h1 e1] t1]| |],
             (foldl _ (Done (_, _, s2)) _) as [[[h2 e2] t2]| |]; simpl in H |- *; try done.
    by injection H as -> ->.
  - by destruct (foldl _ _ _).
Qed.

Lemma to_gds_sink w self out s1 s2 :
  res_map fst (to_gds w self out s1) = res_map fst (to_gds w self out s2).
Proof.
  unfold to_gds. destruct (heap w !! self) as [c|]; [|done].
  destruct (rc_source c) as [s|].
  - destruct (sources w !! s) as [src|]; [|done].
    destruct (release_source _ _); cbn [res_bind res_map]; try done.
    by destruct (fwrite _ _ _).
  - by destruct (fwrite _ _ _).
Qed.


(** C9: whole-file load, polygon extraction and materializing write-out
    return the same map, entities, polygon sequence, written bytes, error code
    and outcome whatever the diagnostic sink is, present (with any contents) or
    absent: only the sink itself differs.  RawCell::clear does not read the
    sink at all. *)
Theorem diagnostic_sink_does_not_interfere :
  (∀ fuel fs filename error_code sink1 sink2,
     res_map fst (read_rawcells fuel fs filename error_code sink1)
     = res_map fst (read_rawcells fuel fs filename error_code sink2)) ∧
  (∀ gdsii_real_to_double fs h fuel self depth unit tolerance x sink1 sink2,
     res_map fst (get_polygons gdsii_real_to_double fs h fuel self depth unit tolerance (x, sink1))
     = res_map fst (get_polygons gdsii_real_to_double fs h fuel self depth unit tolerance (x, sink2))) ∧
  (∀ w self out sink1 sink2,
     res_map fst (to_gds w self out sink1) = res_map fst (to_gds w self out sink2)).
Proof.
  split; [|split]; intros.
  - apply read_rawcells_sink.
  - apply get_polygons_sink.
  - apply to_gds_sink.
Qed.

(** * Further properties *)

(** ** get_dependencies on graphs without cycles *)

Lemma insert_keeps h acc nm r :
  unique_names h → consistent h acc → named h r nm →
  ∀ k v, acc !! k = Some v → <[nm := r]> acc !! k = Some v.
Proof.
  intros Huniq Hcons Hnamed k v Hk.
  destruct (decide (nm = k)) as [->|Hne].
  - rewrite lookup_insert_eq. f_equal. eapply Huniq; [done|]. by apply Hcons.
  - by rewrite lookup_insert_ne.
Qed.

Lemma closed_reachable h acc nm p r nmr :
  closed h acc → consistent h acc → resolved_heap h →
  acc !! nm = Some p → reachable h p r → named h r nmr → acc !! nmr = Some r.
Proof.
  intros Hcl Hcons Hres Hp Hreach. revert nm Hp.
  induction Hreach as [p q Hedge|p q r Hedge Hreach IH]; intros nm Hp Hnamed.
  - by eapply Hcl.
  - destruct Hedge as (c & Hc & Hin).
    destruct (Hres _ _ Hc _ Hin) as (q' & nmq & [= <-] & Hq).
    eapply (IH nmq); [|done]. eapply Hcl; [done| |done]. by exists c.
Qed.

Section AcyclicLoop.
Variable h : gmap ptr RawCell.
Variable self : ptr.
Variable recurse : ptr → gmap cstring ptr → Res (gmap cstring ptr).
Hypothesis unique : unique_names h.
Hypothesis recurse_closes : ∀ r acc,
  edge h self r → consistent h acc → closed h acc →
  ∃ acc', recurse r acc = Done acc' ∧
    (∀ k v, acc !! k = Some v → acc' !! k = Some v) ∧
    consistent h acc' ∧ closed h acc' ∧
    (∀ q nm, edge h r q → named h q nm → acc' !! nm = Some q) ∧
    (∀ nm q, acc' !! nm = Some q → acc !! nm = Some q ∨ reachable h r q).

Lemma get_dependencies_loop_closes items acc :
  (∀ q, Resolved q ∈ items → edge h self q) →
  resolved_slots h items →
  consistent h acc → closed h acc →
  ∃ acc', get_dependencies_loop h true recurse items acc = Done acc' ∧
    (∀ k v, acc !! k = Some v → acc' !! k = Some v) ∧
    consistent h acc' ∧ closed h acc' ∧
    (∀ q nm, Resolved q ∈ items → named h q nm → acc' !! nm = Some q) ∧
    (∀ nm q, acc' !! nm = Some q → acc !! nm = Some q ∨ reachable h self q).
Proof.
  revert acc. induction items as [|s items IH]; intros acc Hedges Hres Hcons Hcl.
  - exists acc. repeat split; try done.
    + intros q nm Hin. by apply elem_of_nil in Hin.
    + by left.
  - destruct (Hres s) as (r & nm & -> & Hnamed); [left|].
    assert (Hedge : edge h self r) by (apply Hedges; left).
    assert (Hedges' : ∀ q, Resolved q ∈ items → edge h self q).
    { intros q Hq. apply Hedges. by right. }
    assert (Hres' : resolved_slots h items).
    { intros s Hs. apply Hres. by right. }
    destruct Hnamed as (rc & Hr & Hnm).
    assert (Hnamed : named h r nm) by (by exists rc).
    cbn [get_dependencies_loop]. rewrite Hr, Hnm. cbn [andb].
    destruct (bool_decide (acc !! nm = Some r)) eqn:Hseen; cbn [negb res_bind].
    + apply bool_decide_eq_true in Hseen. rewrite insert_id by done.
      destruct (IH acc Hedges' Hres' Hcons Hcl)
        as (acc' & Hrun & Hincl & Hcons' & Hcl' & Hdirect & Hmin).
      exists acc'. repeat split; try done.
      intros q nm' Hin Hq. apply elem_of_cons in Hin as [[= ->]|Hin]; [|by apply Hdirect].
      destruct Hq as (c' & Hc' & Hn'). simplify_eq. by apply Hincl.
    + destruct (recurse_closes r acc Hedge Hcons Hcl)
        as (acc1 & Hrec & Hincl1 & Hcons1 & Hcl1 & Hdirect1 & Hmin1).
      rewrite Hrec. cbn [res_bind].
      pose proof (insert_keeps h acc1 nm r unique Hcons1 Hnamed) as Hkeep.
      assert (Hcons2 : consistent h (<[nm := r]> acc1)).
      { intros k v. destruct (decide (nm = k)) as [->|Hne].
        - rewrite lookup_insert_eq. by intros [= <-].
        - rewrite lookup_insert_ne by done. apply Hcons1. }
      assert (Hcl2 : closed h (<[nm := r]> acc1)).
      { intros k p q nmq Hk Hpq Hq. apply Hkeep.
        destruct (decide (nm = k)) as [->|Hne].
        - rewrite lookup_insert_eq in Hk. injection Hk as <-. by apply Hdirect1.
        - rewrite lookup_insert_ne in Hk by done. by eapply Hcl1. }
      destruct (IH _ Hedges' Hres' Hcons2 Hcl2)
        as (acc' & Hrun & Hincl & Hcons' & Hcl' & Hdirect & Hmin).
      exists acc'. repeat split; try done.
      * intros k v Hk. by apply Hincl, Hkeep, Hincl1.
      * intros q nm' Hin Hq. apply elem_of_cons in Hin as [[= ->]|Hin]; [|by apply Hdirect].
        destruct Hq as (c' & Hc' & Hn'). simplify_eq. apply Hincl, lookup_insert_eq.
      * intros k v Hk. destruct (Hmin _ _ Hk) as [Hk2|]; [|by right].
        destruct (decide (nm = k)) as [->|Hne].
        -- rewrite lookup_insert_eq in Hk2. injection Hk2 as <-.
           right. by apply reachable_direct.
        -- rewrite lookup_insert_ne in Hk2 by done.
           destruct (Hmin1 _ _ Hk2) as [|Hreach]; [by left|].
           right. by eapply reachable_through.
Qed.
End AcyclicLoop.

Lemma get_dependencies_closes h rank fuel :
  unique_names h → resolved_heap h → ranked h rank →
  ∀ self acc, (rank self < fuel)%nat → is_Some (h !! self) →
  consistent h acc → closed h acc →
  ∃ acc', get_dependencies fuel h true self acc = Done acc' ∧
    (∀ k v, acc !! k = Some v → acc' !! k = Some v) ∧
    consistent h acc' ∧ closed h acc' ∧
    (∀ q nm, edge h self q → named h q nm → acc' !! nm = Some q) ∧
    (∀ nm q, acc' !! nm = Some q → acc !! nm = Some q ∨ reachable h self q).
Proof.
  intros Huniq Hres Hrank.
  induction fuel as [|fuel IH]; intros self acc Hlt [c Hc] Hcons Hcl; [lia|].
  cbn [get_dependencies]. rewrite Hc.
  destruct (get_dependencies_loop_closes h self (get_dependencies fuel h true) Huniq)
    with (items := rc_dependencies c) (acc := acc)
    as (acc' & Hrun & Hincl & Hcons' & Hcl' & Hdirect & Hmin); try done.
  - intros r acc0 Hedge Hcons0 Hcl0. apply IH; try done.
    + specialize (Hrank _ _ Hedge). lia.
    + destruct Hedge as (c' & Hc' & Hin).
      destruct (Hres _ _ Hc' _ Hin) as (q & nm & [= <-] & c'' & -> & _). by eexists.
  - intros q Hq. by exists c.
  - by apply Hres in Hc.
  - exists acc'. repeat split; try done.
    intros q nm (c' & Hc' & Hin). simplify_eq. by apply Hdirect.
Qed.

(** X1: on a dependency graph without cycles whose entities carry distinct
    names, get_dependencies with recursive = true terminates, and from an
    empty accumulator it returns exactly the entities reachable from the
    caller through one or more dependency edges, each under its own name. *)
Theorem get_dependencies_acyclic h rank self :
  unique_names h → resolved_heap h → ranked h rank → is_Some (h !! self) →
  ∃ acc', get_dependencies (S (rank self)) h true self ∅ = Done acc' ∧
    ∀ nm q, acc' !! nm = Some q ↔ reachable h self q ∧ named h q nm.
Proof.
  intros Huniq Hres Hrank Hself.
  assert (Hcons0 : consistent h ∅).
  { intros nm q Hnm. by rewrite lookup_empty in Hnm. }
  assert (Hcl0 : closed h ∅).
  { intros nm p q nmq Hnm. by rewrite lookup_empty in Hnm. }
  destruct (get_dependencies_closes h rank (S (rank self)) Huniq Hres Hrank self ∅
              (Nat.lt_succ_diag_r _) Hself Hcons0 Hcl0)
    as (acc' & Hrun & _ & Hcons & Hcl & Hdirect & Hmin).
  exists acc'. split; [done|]. intros nm q. split.
  - intros Hq. split; [|by apply Hcons].
    destruct (Hmin _ _ Hq) as [Hempty|]; [|done]. by rewrite lookup_empty in Hempty.
  - intros [Hreach Hnamed].
    inversion Hreach as [p q' Hedge|p q' r Hedge Hreach']; subst.
    + by apply Hdirect.
    + destruct Hedge as (c & Hc & Hin).
      destruct (Hres _ _ Hc _ Hin) as (q'' & nmq & [= <-] & Hq').
      eapply closed_reachable; try done.
      apply Hdirect; [|done]. by exists c.
Qed.

Lemma dag_heap_lookup p c :
  dag_heap !! p = Some c →
  (p = 0%nat ∧ c = dag_cell "TOP" [Resolved 1%nat; Resolved 2%nat]) ∨
  (p = 1%nat ∧ c = dag_cell "MID" [Resolved 2%nat]) ∨
  (p = 2%nat ∧ c = dag_cell "LEAF" []).
Proof.
  unfold dag_heap. intros Hp.
  destruct (decide (p = 0%nat)) as [->|H0].
  { rewrite lookup_insert_eq in Hp. left. by simplify_eq. }
  rewrite lookup_insert_ne in Hp by done.
  destruct (decide (p = 1%nat)) as [->|H1].
  { rewrite lookup_insert_eq in Hp. right; left. by simplify_eq. }
  rewrite lookup_insert_ne in Hp by done.
  destruct (decide (p = 2%nat)) as [->|H2].
  { rewrite lookup_singleton_eq in Hp. right; right. by simplify_eq. }
  by rewrite lookup_singleton_ne in Hp.
Qed.

Lemma get_dependencies_acyclic_witness :
  ∃ acc', get_dependencies (S (dag_rank 0%nat)) dag_heap true 0%nat ∅ = Done acc' ∧
    ∀ nm q, acc' !! nm = Some q ↔ reachable dag_heap 0%nat q ∧ named dag_heap q nm.
Proof.
  apply (get_dependencies_acyclic dag_heap dag_rank 0%nat).
  - intros p q nm (c & Hc & Hn) (c' & Hc' & Hn').
    apply dag_heap_lookup in Hc as [[-> ->]|[[-> ->]|[-> ->]]];
      apply dag_heap_lookup in Hc' as [[-> ->]|[[-> ->]|[-> ->]]];
      cbn in Hn, Hn'; simplify_eq; reflexivity.
  - intros p c Hc s Hs.
    apply dag_heap_lookup in Hc as [[-> ->]|[[-> ->]|[-> ->]]]; cbn in Hs.
    + apply elem_of_cons in Hs as [->|Hs]; [|apply list_elem_of_singleton in Hs as ->].
      * exists 1%nat, (ascii "MID"). split; [done|]. by eexists.
      * exists 2%nat, (ascii "LEAF"). split; [done|]. by eexists.
    + apply list_elem_of_singleton in Hs as ->.
      exists 2%nat, (ascii "LEAF"). split; [done|]. by eexists.
    + by apply elem_of_nil in Hs.
  - intros p q (c & Hc & Hin). unfold dag_rank.
    apply dag_heap_lookup in Hc as [[-> ->]|[[-> ->]|[-> ->]]]; cbn in Hin.
    + apply elem_of_cons in Hin as [[= ->]|Hin];
        [|apply list_elem_of_singleton in Hin as [= ->]]; lia.
    + apply list_elem_of_singleton in Hin as [= ->]. lia.
    + by apply elem_of_nil in Hin.
  - by eexists.
Defined.

(** ** The output of get_polygons *)

Lemma appends_same x x' :
  polygons x' = polygons x → start_id x' = start_id x → appends x x'.
Proof.
  intros Hp Hs. exists []. rewrite Hp, Hs, app_nil_r.
  split; [done|]. split; [lia|]. split; [done|]. split; constructor.
Qed.

Lemma appends_trans x1 x2 x3 : appends x1 x2 → appends x2 x3 → appends x1 x3.
Proof.
  intros (new1 & Hp1 & Hs1 & Hi1 & Hr1 & Ho1) (new2 & Hp2 & Hs2 & Hi2 & Hr2 & Ho2).
  exists (new1 ++ new2). split; [by rewrite Hp2, Hp1, app_assoc|]. split; [lia|].
  split; [tauto|]. split.
  - apply Forall_app. split.
    + eapply Forall_impl; [exact Hr1|]. cbn. intros t Ht. lia.
    + eapply Forall_impl; [exact Hr2|]. cbn. intros t Ht. lia.
  - clear Hp1 Hp2. induction new1 as [|t new1 IH]; [done|].
    apply Forall_cons in Hr1 as [Ht Hr1]. apply StronglySorted_inv in Ho1 as [Ho1 Hle].
    cbn [app]. constructor; [by apply IH|].
    apply Forall_app. split; [done|].
    eapply Forall_impl; [exact Hr2|]. cbn. intros t' Ht'. lia.
Qed.

Lemma xy_loop_appends bound buffer factor data_length id : ∀ i polygons polygons',
  xy_loop bound buffer factor data_length i id polygons = Done polygons' →
  ∃ new, polygons' = polygons ++ new ∧ Forall (λ t, polygon_id t = id) new.
Proof.
  induction bound as [|bound IH]; intros i polygons polygons';
    cbn [xy_loop]; destruct (i <? data_length); try discriminate.
  - intros [= <-]. exists []. by rewrite app_nil_r.
  - destruct (data32 buffer i); [|discriminate].
    destruct (data32 buffer (i + 1)); [|discriminate].
    destruct (scale factor z); [|discriminate].
    destruct (scale factor z0); [|discriminate].
    intros Hrun. apply IH in Hrun as (new & -> & Hnew).
    exists ((z1, z2, id) :: new). split; [by rewrite <- app_assoc|]. by constructor.
  - intros [= <-]. exists []. by rewrite app_nil_r.
Qed.

(** One XY record of a polygon: the triples carry the current id, which is
    then incremented. *)
Lemma appends_xy x bound buffer factor data_length polygons' stdout' calls' ec' :
  xy_loop bound buffer factor data_length 0 (start_id x) (polygons x) = Done polygons' →
  (start_id x <? 2 ^ 31 - 1) = true →
  appends x (mkExtraction (start_id x + 1) ec' polygons' stdout' calls').
Proof.
  intros Hrun Hint. apply Z.ltb_lt in Hint.
  apply xy_loop_appends in Hrun as (new & -> & Hnew).
  exists new. cbn [polygons start_id]. split; [done|]. split; [lia|].
  split; [lia|]. split.
  - eapply Forall_impl; [exact Hnew|]. cbn. intros t ->. lia.
  - clear -Hnew. induction Hnew as [|t new Ht Hnew IH]; constructor; [done|].
    eapply Forall_impl; [exact Hnew|]. cbn. intros t' ->. lia.
Qed.

Section AppendScan.
Variable gdsii_real_to_double : Z → float.
Variable h : gmap ptr RawCell.
Variable fuel : nat.
Variable self : ptr.
Variable name : option cstring.
Variable depth : Z.
Variable unit : float.
Variable recurse : ptr → float → Extraction * Sink → Res (Extraction * Sink).
Hypothesis recurse_appends : ∀ ref tol x sink x' sink',
  recurse ref tol (x, sink) = Done (x', sink') → appends x x'.

Lemma scan_loop_appends n : ∀ s x sink x' sink',
  scan_loop gdsii_real_to_double h fuel self name depth unit recurse n s (x, sink)
  = Done (x', sink') →
  appends x x'.
Proof.
  induction n as [|n IH]; intros s x sink x' sink'; [done|].
  cbn [scan_loop input buffer factor tolerance target_cell_found found_polygon].
  destruct (gdsii_read_record (input s) (buffer s)) as [err|[[buf0 rl] rest]].
  { intros [= <- <-]. by apply appends_same. }
  destruct (swap_payload buf0 rl) as [dl buf].
  destruct (gdsii_record (default 0 (buf !! 2%nat)));
    repeat first
      [ discriminate
      | match goal with
        | |- Done _ = Done _ → _ => intros [= <- <-]; by apply appends_same
        | Hrec : appends _ ?y |- scan_loop _ _ _ _ _ _ _ _ _ _ (?y, _) = Done _ → _ =>
          let H := fresh in
          intros H; apply IH in H;
          eapply appends_trans; [|exact H];
          eapply appends_trans; [|exact Hrec]; by apply appends_same
        | Hxy : xy_loop _ _ _ _ _ _ _ = Done ?a, Hint : (start_id _ <? _) = true
          |- scan_loop _ _ _ _ _ _ _ _ _ _ (mkExtraction _ _ ?a _ _, _) = Done _ → _ =>
          let H := fresh in
          intros H; apply IH in H;
          eapply appends_trans; [|exact H]; eapply appends_xy; [exact Hxy|exact Hint]
        | |- scan_loop _ _ _ _ _ _ _ _ _ _ (?y, _) = Done _ → _ =>
          let H := fresh in
          intros H; apply IH in H;
          first [ exact H
                | eapply appends_trans; [|exact H]; by apply appends_same ]
        | |- context [recurse ?r ?t (?y, ?k)] =>
          let H := fresh in
          destruct (recurse r t (y, k)) as [[? ?]| |] eqn:H; cbn [res_bind];
          [apply recurse_appends in H|..]
        | |- context [data64 buf ?i] => destruct (data64 buf i)
        | |- context [match name with _ => _ end] => destruct name
        | |- context [strncmp_eq ?a ?b ?c] => destruct (strncmp_eq a b c)
        | |- context [target_cell_found s && ?b] => destruct (target_cell_found s && b)
        | |- context [if target_cell_found s then _ else _] => destruct (target_cell_found s)
        | |- context [if found_polygon s then _ else _] => destruct (found_polygon s)
        | |- context [if start_id ?y <? ?b then _ else _] =>
          let H := fresh in destruct (start_id y <? b) eqn:H
        | |- context [get_dependencies ?f h true self ∅] =>
          destruct (get_dependencies f h true self ∅); cbn [res_bind]
        | |- context [str_at ?b] => destruct (str_at b)
        | |- context [match ?m !! ?k with _ => _ end] => destruct (m !! k)
        | |- context [xy_loop ?a ?b ?c ?d ?e ?f ?g] =>
          let H := fresh in
          destruct (xy_loop a b c d e f g) eqn:H; cbn [res_bind]
        end ].
Qed.
End AppendScan.

(** X2: whatever get_polygons returns, it only appended triples to the output
    vector; the polygon ids of the new triples lie between the start_id it
    was called with and the start_id it leaves, which is not smaller and is
    still an [int] (incrementing start_id at INT_MAX is undefined behaviour,
    from which nothing is returned), and they never decrease along the
    output, so the triples of one polygon are consecutive. *)
Theorem get_polygons_appends r2d fs h fuel self depth unit tol x sink x' sink' :
  get_polygons r2d fs h fuel self depth unit tol (x, sink) = Done (x', sink') →
  appends x x'.
Proof.
  revert self depth tol x sink x' sink'.
  induction fuel as [|fuel IH]; intros self depth tol x sink x' sink'; [done|].
  cbn [get_polygons]. destruct (h !! self) as [c|]; [|done].
  destruct (fs !! rc_filename c) as [bytes|].
  - intros Hrun. eapply scan_loop_appends in Hrun.
    + eapply appends_trans; [|exact Hrun]. by apply appends_same.
    + intros ref tol' y k y' k' Hrec. by eapply IH.
  - intros [= <- <-]. by apply appends_same.
Qed.

Lemma get_polygons_appends_witness :
  ∃ x' sink',
    get_polygons units_unread unrelated_fs (load_file unrelated_fs file_ex).2 1 0%nat 0
      0%float 0%float (extraction0, None) = Done (x', sink') ∧
    appends extraction0 x'.
Proof.
  destruct (get_polygons units_unread unrelated_fs (load_file unrelated_fs file_ex).2 1
              0%nat 0 0%float 0%float (extraction0, None)) as [[x' sink']| |] eqn:Hrun;
    [|vm_compute in Hrun; discriminate..].
  exists x', sink'. split; [reflexivity|].
  exact (get_polygons_appends _ _ _ _ _ _ _ _ _ _ _ _ Hrun).
Defined.

(** ** clear, to_gds and the use count of the shared source *)

Lemma referrers_lookup h s p c :
  referrers h s !! p = Some c ↔ h !! p = Some c ∧ rc_source c = Some s.
Proof. unfold referrers. by rewrite map_lookup_filter_Some. Qed.

(** Replacing an entity by one that refers to no source takes it out of the
    referrers of every source. *)
Lemma referrers_insert_none h s self c' :
  rc_source c' = None →
  referrers (<[self := c']> h) s = delete self (referrers h s).
Proof.
  intros Hnone. unfold referrers.
  rewrite map_filter_insert_False by (cbn; congruence).
  apply map_filter_delete.
Qed.

Lemma referrers_insert_other h s self c c' :
  h !! self = Some c → rc_source c ≠ Some s → rc_source c' = None →
  referrers (<[self := c']> h) s = referrers h s.
Proof.
  intros Hc Hne Hnone. rewrite referrers_insert_none by done.
  apply delete_id. destruct (referrers h s !! self) as [c0|] eqn:Hlk; [|done].
  apply referrers_lookup in Hlk as [Hc0 Hs]. congruence.
Qed.

(** An entity that refers to no source is replaced by another such entity. *)
Lemma sound_update w self c c' :
  sound w → heap w !! self = Some c →
  rc_source c = None → rc_source c' = None → kept c' →
  sound (mkWorld (<[self := c']> (heap w)) (sources w)).
Proof.
  intros [Hkept Hopen Huses] Hc Hnone Hnone' Hkept'. split; cbn [heap sources].
  - intros p c0 Hp. destruct (decide (p = self)) as [->|Hne].
    + rewrite lookup_insert_eq in Hp. by simplify_eq.
    + rewrite lookup_insert_ne in Hp by done. by eapply Hkept.
  - intros p c0 s Hp Hs. destruct (decide (p = self)) as [->|Hne].
    + rewrite lookup_insert_eq in Hp. simplify_eq; congruence.
    + rewrite lookup_insert_ne in Hp by done. by eapply Hopen.
  - intros s src Hsrc.
    rewrite (referrers_insert_other _ s self c c') by (done || congruence).
    by apply Huses.
Qed.

(** An entity gives up its source: the use count drops by one, and the source
    is closed when no other entity refers to it. *)
Lemma sound_release w self c s c' :
  sound w → heap w !! self = Some c → rc_source c = Some s →
  rc_source c' = None → kept c' →
  ∃ sources', release_source (sources w) s = Done sources' ∧
    sound (mkWorld (<[self := c']> (heap w)) sources') ∧
    (is_Some (sources' !! s) ↔ shared_with (heap w) self s) ∧
    (∀ s', s' ≠ s → sources' !! s' = sources w !! s').
Proof.
  intros [Hkept Hopen Huses] Hc Hs Hnone' Hkept'.
  destruct (Hopen _ _ _ Hc Hs) as [src Hsrc].
  destruct (Huses _ _ Hsrc) as [Hcount Hrange].
  assert (Hself : referrers (heap w) s !! self = Some c) by (by apply referrers_lookup).
  assert (Hsize : size (referrers (<[self := c']> (heap w)) s)
                  = (size (referrers (heap w) s) - 1)%nat).
  { rewrite referrers_insert_none by done. rewrite map_size_delete, Hself. lia. }
  assert (Hpos : (0 < size (referrers (heap w) s))%nat).
  { destruct (size (referrers (heap w) s)) eqn:Hz; [|lia].
    apply map_size_empty_inv in Hz. rewrite Hz in Hself. by rewrite lookup_empty in Hself. }
  assert (Hshared : shared_with (heap w) self s
                    ↔ (0 < size (referrers (<[self := c']> (heap w)) s))%nat).
  { rewrite referrers_insert_none by done. split.
    - intros (p & c0 & Hne & Hp & Hps).
      destruct (size (delete self (referrers (heap w) s))) eqn:Hz; [|lia].
      apply map_size_empty_inv in Hz.
      assert (Hin : delete self (referrers (heap w) s) !! p = Some c0).
      { rewrite lookup_delete_ne by done. by apply referrers_lookup. }
      rewrite Hz in Hin. by rewrite lookup_empty in Hin.
    - intros Hlt.
      destruct (map_size_ne_0_lookup_1 (delete self (referrers (heap w) s)))
        as (p & [c0 Hp]); [lia|].
      destruct (decide (p = self)) as [->|Hne]; [by rewrite lookup_delete_eq in Hp|].
      rewrite lookup_delete_ne in Hp by done. apply referrers_lookup in Hp as [Hp Hps].
      by exists p, c0. }
  assert (Hmod : (src_uses src - 1) mod 2 ^ 64 = src_uses src - 1)
    by (apply Z.mod_small; lia).
  unfold release_source. rewrite Hsrc. cbn zeta. rewrite Hmod.
  destruct (src_uses src - 1 =? 0) eqn:Hzero.
  - apply Z.eqb_eq in Hzero.
    assert (Hlast : size (referrers (<[self := c']> (heap w)) s) = 0%nat) by lia.
    eexists. split; [reflexivity|]. split; [|split].
    + split; cbn [heap sources].
      * intros p c0 Hp. destruct (decide (p = self)) as [->|Hne].
        -- rewrite lookup_insert_eq in Hp. by simplify_eq.
        -- rewrite lookup_insert_ne in Hp by done. by eapply Hkept.
      * intros p c0 s0 Hp Hs0. destruct (decide (p = self)) as [->|Hne].
        { rewrite lookup_insert_eq in Hp. simplify_eq; congruence. }
        rewrite lookup_insert_ne in Hp by done.
        destruct (decide (s0 = s)) as [->|Hne'].
        -- assert (shared_with (heap w) self s) as Hsh by (by exists p, c0).
           apply Hshared in Hsh. lia.
        -- rewrite lookup_delete_ne by done. by eapply Hopen.
      * intros s0 src0 Hsrc0.
        destruct (decide (s0 = s)) as [->|Hne]; [by rewrite lookup_delete_eq in Hsrc0|].
        rewrite lookup_delete_ne in Hsrc0 by done.
        rewrite (referrers_insert_other _ s0 self c c') by (done || congruence).
        by apply Huses.
    + rewrite lookup_delete_eq. rewrite Hshared, Hlast. split; [by intros [? ?]|lia].
    + intros s' Hne. by rewrite lookup_delete_ne.
  - apply Z.eqb_neq in Hzero.
    eexists. split; [reflexivity|]. split; [|split].
    + split; cbn [heap sources].
      * intros p c0 Hp. destruct (decide (p = self)) as [->|Hne].
        -- rewrite lookup_insert_eq in Hp. by simplify_eq.
        -- rewrite lookup_insert_ne in Hp by done. by eapply Hkept.
      * intros p c0 s0 Hp Hs0. destruct (decide (p = self)) as [->|Hne].
        { rewrite lookup_insert_eq in Hp. simplify_eq; congruence. }
        rewrite lookup_insert_ne in Hp by done.
        destruct (decide (s0 = s)) as [->|Hne']; [by rewrite lookup_insert_eq|].
        rewrite lookup_insert_ne by done. by eapply Hopen.
      * intros s0 src0 Hsrc0.
        destruct (decide (s0 = s)) as [->|Hne].
        -- rewrite lookup_insert_eq in Hsrc0. injection Hsrc0 as <-. cbn [src_uses].
           rewrite Hsize. lia.
        -- rewrite lookup_insert_ne in Hsrc0 by done.
           rewrite (referrers_insert_other _ s0 self c c') by (done || congruence).
           by apply Huses.
    + rewrite lookup_insert_eq. rewrite Hshared, Hsize. split; [lia|by eexists].
    + intros s' Hne. by rewrite lookup_insert_ne.
Qed.

(** X4: in a sound state clear succeeds on every live entity and leaves a sound
    state; no other entity changes, and the source the entity referred to
    stays open exactly when another entity still refers to it. *)
Theorem clear_sound w self c :
  sound w → heap w !! self = Some c →
  ∃ w', clear w self = Done w' ∧ sound w' ∧
    (∀ p, p ≠ self → heap w' !! p = heap w !! p) ∧
    (∀ s, rc_source c = Some s →
       (is_Some (sources w' !! s) ↔ shared_with (heap w) self s)) ∧
    (∀ s, rc_source c ≠ Some s → sources w' !! s = sources w !! s).
Proof.
  intros Hsound Hc. unfold clear. rewrite Hc.
  destruct (rc_source c) as [s|] eqn:Hs.
  - destruct (sound_release w self c s
                (mkRawCell None None 0 None 0 [] (rc_filename c)) Hsound Hc Hs)
      as (sources' & -> & Hsound' & Hiff & Hother); [done | by left |].
    cbn [res_bind]. eexists. split; [reflexivity|]. split; [done|]. cbn [heap sources].
    split; [|split].
    + intros p Hne. by rewrite lookup_insert_ne.
    + by intros s' [= <-].
    + intros s' Hne. apply Hother. congruence.
  - eexists. split; [reflexivity|]. split; [|split; [|split]]; cbn [heap sources].
    + apply (sound_update w self c); try done. by left.
    + intros p Hne. by rewrite lookup_insert_ne.
    + done.
    + done.
Qed.

Lemma shared_world_sound : sound shared_world.
Proof.
  assert (Hheap : ∀ p c, heap shared_world !! p = Some c →
            rc_source c = Some 0%nat ∧ rc_data c = None).
  { intros p c Hp. cbn [shared_world heap] in Hp.
    destruct (decide (p = 0%nat)) as [->|H0].
    { rewrite lookup_insert_eq in Hp. by injection Hp as <-. }
    rewrite lookup_insert_ne in Hp by done.
    destruct (decide (p = 1%nat)) as [->|H1].
    { rewrite lookup_singleton_eq in Hp. by injection Hp as <-. }
    by rewrite lookup_singleton_ne in Hp. }
  split.
  - intros p c Hp. destruct (Hheap p c Hp) as [Hs Hd]. unfold kept. by rewrite Hs.
  - intros p c s Hp Hs. destruct (Hheap p c Hp) as [Hs' _].
    assert (s = 0%nat) as -> by congruence. by eexists.
  - intros s src Hsrc. cbn [shared_world sources] in Hsrc.
    destruct (decide (s = 0%nat)) as [->|Hne]; [|by rewrite lookup_singleton_ne in Hsrc].
    rewrite lookup_singleton_eq in Hsrc. injection Hsrc as <-. cbn [src_uses].
    split; [vm_compute; reflexivity|lia].
Qed.

Lemma clear_sound_witness :
  ∃ w', clear shared_world 0%nat = Done w' ∧ sound w' ∧
    is_Some (sources w' !! 0%nat).
Proof.
  destruct (clear_sound shared_world 0%nat lazy_cell shared_world_sound eq_refl)
    as (w' & Hrun & Hsound & _ & Hopen & _).
  exists w'. split; [exact Hrun|]. split; [exact Hsound|].
  apply (Hopen 0%nat eq_refl). eexists 1%nat, _. split; [lia|]. split; reflexivity.
Defined.

(** X5: clearing a cleared entity changes nothing: the state clear leaves is a
    fixed point of clear, so the use count of the source is decremented once
    only.  The entity is one that owns no buffer while it refers to a source,
    as read_rawcells and to_gds leave entities: clear does not look at [data]
    when [source] is set. *)
Theorem clear_idempotent w self c w' :
  heap w !! self = Some c → kept c →
  clear w self = Done w' → clear w' self = Done w'.
Proof.
  intros Hc Hkept. unfold clear at 1. rewrite Hc.
  destruct (rc_source c) as [s|] eqn:Hs.
  - destruct (release_source (sources w) s) as [sources'| |]; cbn [res_bind]; [|done..].
    intros [= <-]. unfold clear. cbn [heap sources]. rewrite lookup_insert_eq.
    cbn [rc_source rc_offset rc_filename]. by rewrite insert_insert_eq.
  - intros [= <-]. unfold clear. cbn [heap sources]. rewrite lookup_insert_eq.
    cbn [rc_source rc_offset rc_filename]. by rewrite insert_insert_eq.
Qed.

Lemma clear_idempotent_witness :
  ∃ w', clear lazy_world 0%nat = Done w' ∧ clear w' 0%nat = Done w'.
Proof.
  destruct (clear lazy_world 0%nat) as [w'| |] eqn:Hrun;
    [|vm_compute in Hrun; discriminate..].
  exists w'. split; [reflexivity|].
  apply (clear_idempotent lazy_world 0%nat lazy_cell w'); [reflexivity | reflexivity | exact Hrun].
Defined.

(** X6: in a sound state to_gds succeeds on every live entity and leaves a
    sound state in which the entity refers to no source; the source it
    referred to stays open exactly when another entity still refers to it. *)
Theorem to_gds_sound w self c out sink :
  sound w → heap w !! self = Some c →
  ∃ error_code w' out' sink' c',
    to_gds w self out sink = Done (error_code, w', out', sink') ∧ sound w' ∧
    heap w' !! self = Some c' ∧ rc_source c' = None ∧
    (∀ p, p ≠ self → heap w' !! p = heap w !! p) ∧
    (∀ s, rc_source c = Some s →
       (is_Some (sources w' !! s) ↔ shared_with (heap w) self s)) ∧
    (∀ s, rc_source c ≠ Some s → sources w' !! s = sources w !! s).
Proof.
  intros Hsound Hc. unfold to_gds. rewrite Hc.
  destruct (rc_source c) as [s|] eqn:Hs.
  - destruct (sound_open w Hsound _ _ _ Hc Hs) as [src Hsrc]. rewrite Hsrc. cbn zeta.
    set (data := offset_read src (rc_size c) (rc_offset c)).
    set (failed := negb (Z.of_nat (length data) =? rc_size c)).
    set (c' := mkRawCell (rc_name c) None (rc_offset c) (Some data)
                 (if failed then 0 else rc_size c) (rc_dependencies c) (rc_filename c)).
    assert (Hkept' : kept c').
    { unfold kept, c'. cbn. destruct failed eqn:Hf; [by left|]. right.
      exists data. split; [done|]. unfold failed in Hf.
      apply negb_false_iff, Z.eqb_eq in Hf. lia. }
    destruct (sound_release w self c s c' Hsound Hc Hs)
      as (sources' & -> & Hsound' & Hiff & Hother); [done | done |].
    cbn [res_bind].
    assert (Hwrite : ∃ out', fwrite (Some data) (if failed then 0 else rc_size c) out
                             = Done out').
    { unfold fwrite. destruct failed eqn:Hf; [by eexists|].
      destruct (rc_size c =? 0); [by eexists|].
      unfold failed in Hf. apply negb_false_iff, Z.eqb_eq in Hf.
      rewrite (leb_correct (Z.to_nat (rc_size c)) (length data)) by lia. by eexists. }
    destruct Hwrite as [out' ->]. cbn [res_bind].
    eexists _, _, _, _, c'. split; [reflexivity|]. split; [done|]. cbn [heap sources].
    split; [apply lookup_insert_eq|]. split; [done|]. split; [|split].
    + intros p Hne. by rewrite lookup_insert_ne.
    + by intros s' [= <-].
    + intros s' Hne. apply Hother. congruence.
  - assert (Hwrite : ∃ out', fwrite (rc_data c) (rc_size c) out = Done out').
    { pose proof (sound_kept w Hsound _ _ Hc) as Hk. unfold kept in Hk. rewrite Hs in Hk.
      unfold fwrite. destruct Hk as [->|(d & -> & Hlen)]; [by eexists|].
      destruct (rc_size c =? 0); [by eexists|].
      rewrite (leb_correct _ _ Hlen). by eexists. }
    destruct Hwrite as [out' ->]. cbn [res_bind].
    eexists _, _, _, _, c. split; [reflexivity|]. split; [done|]. by repeat split.
Qed.

Lemma to_gds_sound_witness :
  ∃ error_code w' out' sink',
    to_gds shared_world 1%nat [] None = Done (error_code, w', out', sink') ∧ sound w' ∧
    is_Some (sources w' !! 0%nat).
Proof.
  destruct (to_gds_sound shared_world 1%nat _ [] None shared_world_sound eq_refl)
    as (ec & w' & out' & sink' & c' & Hrun & Hsound & _ & _ & _ & Hopen & _).
  exists ec, w', out', sink'. split; [exact Hrun|]. split; [exact Hsound|].
  apply (Hopen 0%nat eq_refl). eexists 0%nat, _. split; [lia|]. split; reflexivity.
Defined.

(** X7: when the source holds fewer than [size] bytes from [offset] on, to_gds
    returns InputFileError and writes nothing; the entity is left with size
    zero and without its source, which is released all the same, and the
    failure is logged when a sink is present. *)
Theorem to_gds_short_read w self c s src out sink :
  heap w !! self = Some c → rc_source c = Some s → sources w !! s = Some src →
  0 ≤ rc_offset c → 0 < rc_size c →
  Z.of_nat (length (src_contents src)) < rc_offset c + rc_size c →
  ∃ w' c',
    to_gds w self out sink
    = Done (InputFileError, w', out, emit sink UnableToReadRawCellData) ∧
    heap w' !! self = Some c' ∧ rc_size c' = 0 ∧ rc_source c' = None ∧
    release_source (sources w) s = Done (sources w').
Proof.
  intros Hc Hs Hsrc Hoff Hsize Hshort. unfold to_gds. rewrite Hc, Hs, Hsrc. cbn zeta.
  assert (Hfailed : negb (Z.of_nat (length (offset_read src (rc_size c) (rc_offset c)))
                          =? rc_size c) = true).
  { apply negb_true_iff, Z.eqb_neq. unfold offset_read.
    rewrite length_take, length_drop. lia. }
  rewrite Hfailed.
  assert (Hrel : ∃ sources', release_source (sources w) s = Done sources').
  { unfold release_source. rewrite Hsrc. cbn zeta.
    destruct (_ =? 0); by eexists. }
  destruct Hrel as [sources' Hrel]. rewrite Hrel. cbn [res_bind fwrite Z.eqb].
  eexists _, _. split; [reflexivity|]. cbn [heap sources].
  split; [apply lookup_insert_eq|]. done.
Qed.

Lemma to_gds_short_read_witness :
  ∃ w', to_gds short_world 0%nat [1; 2] (Some [])
        = Done (InputFileError, w', [1; 2], Some [UnableToReadRawCellData]).
Proof.
  destruct (to_gds_short_read short_world 0%nat _ 0%nat lazy_source [1; 2] (Some [])
              eq_refl eq_refl eq_refl) as (w' & c' & Hrun & _); [cbn; lia..|].
  exists w'. exact Hrun.
Defined.

(** X8: a second to_gds on the same entity reads nothing and releases nothing:
    it leaves the state as the first call left it, appends the bytes the
    first call appended once more, and returns NoError, also when the first
    call failed. *)
Theorem to_gds_twice w self out sink error_code w1 out1 sink1 out2 sink2 :
  to_gds w self out sink = Done (error_code, w1, out1, sink1) →
  ∃ written, out1 = out ++ written ∧
    to_gds w1 self out2 sink2 = Done (NoError, w1, out2 ++ written, sink2).
Proof.
  unfold to_gds at 1. intros Hrun.
  destruct (heap w !! self) as [c|] eqn:Hc; [|done].
  destruct (rc_source c) as [s|] eqn:Hs.
  - destruct (sources w !! s) as [src|]; [|done]. cbn zeta in Hrun.
    set (data := offset_read src (rc_size c) (rc_offset c)) in *.
    destruct (release_source (sources w) s) as [sources'| |]; cbn [res_bind] in Hrun;
      [|done..].
    destruct (fwrite (Some data) _ out) as [out'| |] eqn:Hw; cbn [res_bind] in Hrun;
      [|done..].
    injection Hrun as <- <- <- <-.
    unfold to_gds. cbn [heap]. rewrite lookup_insert_eq. cbn [rc_source rc_data rc_size].
    revert Hw. unfold fwrite.
    destruct (negb (Z.of_nat (length data) =? rc_size c)).
    + cbn. intros [= <-]. exists []. by rewrite !app_nil_r.
    + destruct (rc_size c =? 0).
      * intros [= <-]. exists []. by rewrite !app_nil_r.
      * destruct (Z.to_nat (rc_size c) <=? length data)%nat; [|done].
        intros [= <-]. by eexists.
  - destruct (fwrite (rc_data c) (rc_size c) out) as [out'| |] eqn:Hw;
      cbn [res_bind] in Hrun; [|done..].
    injection Hrun as <- <- <- <-.
    unfold to_gds. rewrite Hc, Hs.
    revert Hw. unfold fwrite.
    destruct (rc_size c =? 0).
    + intros [= <-]. exists []. by rewrite !app_nil_r.
    + destruct (rc_data c) as [d|]; [|done].
      destruct (Z.to_nat (rc_size c) <=? length d)%nat; [|done].
      intros [= <-]. by eexists.
Qed.

Lemma to_gds_twice_witness :
  ∃ w1,
    to_gds lazy_world 0%nat [] None = Done (NoError, w1, [12; 13; 14], None) ∧
    to_gds w1 0%nat [1] None = Done (NoError, w1, [1; 12; 13; 14], None).
Proof.
  destruct (to_gds lazy_world 0%nat [] None) as [[[[ec w1] out1] sink1]| |] eqn:Hrun;
    [|vm_compute in Hrun; discriminate..].
  destruct (to_gds_twice lazy_world 0%nat [] None ec w1 out1 sink1 [1] None Hrun)
    as (written & -> & Hagain).
  vm_compute in Hrun. injection Hrun as <- <- <- <-.
  eexists. split; [reflexivity|]. exact Hagain.
Defined.

(** ** The second pass of read_rawcells *)

(** The entities of an injective map are pairwise distinct. *)
Lemma map_to_list_pointers (result : gmap cstring ptr) :
  (∀ nm1 nm2 p, result !! nm1 = Some p → result !! nm2 = Some p → nm1 = nm2) →
  NoDup (map_to_list result).*2.
Proof.
  intros Hinj. apply NoDup_fmap_2_strong; [|apply NoDup_map_to_list].
  intros [nm1 p1] [nm2 p2] H1 H2 Heq. cbn in Heq. subst p2.
  apply elem_of_map_to_list in H1, H2. by rewrite (Hinj nm1 nm2 p1 H1 H2).
Qed.












(** ** The state read_rawcells leaves *)





(** ** Truncated libraries *)

Lemma gdsii_read_record_short input buffer :
  (length input < 4)%nat → gdsii_read_record input buffer = inl InputFileError.
Proof.
  intros Hlen. destruct input as [|b0 [|b1 [|b2 [|b3 rest]]]]; try done.
  cbn in Hlen. lia.
Qed.

(** The record loop on a truncated library breaks on the read error with the
    entities of [load_structures]. *)
Lemma read_loop_truncated prelude structures tail fn src :
  long_name fn →
  forallb valid_element prelude = true →
  forallb valid_structure structures = true →
  (length tail < 4)%nat →
  read_loop (S (length (write_truncated prelude structures tail))) fn src
    (write_truncated prelude structures tail) 0 [] (mkLoad ∅ ∅ 0%nat 0 None)
  = Done (ReadFailed InputFileError
            (load_structures fn src (Z.of_nat (length (concat (map write_element prelude))))
               structures (mkLoad ∅ ∅ 0%nat 0 None))).
Proof.
  intros Hlong Hprelude Hstructures Htail. unfold write_truncated.
  edestruct (read_loop_prelude prelude) as (n1 & buf1 & Hn1 & ->); [done | done | |].
  { rewrite !length_app. lia. }
  edestruct (read_loop_structures structures) as (n2 & buf2 & Hn2 & ->);
    [done | done | done | done |].
  destruct n2 as [|n2]; [lia|].
  cbn [read_loop]. by rewrite gdsii_read_record_short.
Qed.





(** One turn of the teardown on an entity without pending names whose source
    stays in use: the entity is cleared and the use count drops by one. *)
Lemma teardown_item_clean fuel w nm p c src :
  heap w !! p = Some c → rc_source c = Some 0%nat → rc_dependencies c = [] →
  sources w !! 0%nat = Some src → 1 < src_uses src < 2 ^ 64 →
  teardown_item fuel (Done w) (nm, p)
  = Done (mkWorld (<[p := mkRawCell None None 0 None 0 [] (rc_filename c)]> (heap w))
            (<[0%nat := mkRawSource (src_contents src) (src_uses src - 1)]> (sources w))).
Proof.
  intros Hc Hs Hdeps Hsrc Huses.
  unfold teardown_item. cbn [res_bind snd]. rewrite Hc, Hdeps.
  rewrite free_names_loop_empty. cbn [res_bind].
  unfold clear. rewrite Hc, Hs. unfold release_source. rewrite Hsrc. cbn zeta.
  rewrite (Z.mod_small (src_uses src - 1)) by lia.
  destruct (src_uses src - 1 =? 0) eqn:Hz; [apply Z.eqb_eq in Hz; lia|]. done.
Qed.

Lemma foldl_teardown_fault fuel items :
  foldl (teardown_item fuel) Fault items = Fault.
Proof. induction items as [|item items IH]; [done|]. cbn [foldl]. exact IH. Qed.

Lemma foldl_teardown_never_done fuel items : ∀ acc,
  is_done acc = false → is_done (foldl (teardown_item fuel) acc items) = false.
Proof.
  induction items as [|item items IH]; intros acc Hacc; [done|].
  cbn [foldl]. apply IH. by destruct acc.
Qed.

(** The teardown's loop over entities that all refer to the source 0, whose
    use count exceeds their number, when one of them has a pending name: the
    entities before it are cleared, and on it the loop frees a name twice. *)
Lemma teardown_fold_pending fuel items : ∀ w src,
  NoDup (items.*2) →
  (∀ nm p, (nm, p) ∈ items →
     ∃ c names, heap w !! p = Some c ∧ rc_source c = Some 0%nat ∧
       rc_dependencies c = map Unresolved names) →
  sources w !! 0%nat = Some src →
  Z.of_nat (length items) < src_uses src < 2 ^ 64 →
  (∃ nm p c, (nm, p) ∈ items ∧ heap w !! p = Some c ∧ rc_dependencies c ≠ []) →
  is_done (foldl (teardown_item fuel) (Done w) items) = false ∧
  foldl (teardown_item (S (S fuel))) (Done w) items = Fault.
Proof.
  induction items as [|[nm0 p0] items IH]; intros w src Hnodup Hcells Hsrc Huses Hpending.
  { destruct Hpending as (nm & p & c & Hin & _). by apply elem_of_nil in Hin. }
  cbn [fmap list_fmap snd] in Hnodup. apply NoDup_cons in Hnodup as [Hp0 Hnodup].
  cbn [length] in Huses.
  destruct (Hcells nm0 p0) as (c0 & names & Hc0 & Hs0 & Hdeps0); [left|].
  assert (Hfresh : ∀ nm p, (nm, p) ∈ items → p ≠ p0).
  { intros nm p Hin ->. apply Hp0. apply list_elem_of_fmap. by exists (nm, p0). }
  cbn [foldl]. destruct names as [|name names]; cbn [map] in Hdeps0.
  - rewrite !(teardown_item_clean _ w nm0 p0 c0 src) by (done || lia).
    apply (IH _ (mkRawSource (src_contents src) (src_uses src - 1))); [done| | | |].
    + intros nm p Hin. destruct (Hcells nm p) as (c & ns & Hc & Hs & Hd); [by right|].
      exists c, ns. split; [|done]. cbn [heap]. rewrite lookup_insert_ne; [done|].
      intros <-. by eapply Hfresh.
    + cbn [sources]. apply lookup_insert_eq.
    + cbn [src_uses]. lia.
    + destruct Hpending as (nm & p & c & Hin & Hc & Hne).
      apply elem_of_cons in Hin as [[= -> ->]|Hin]; [congruence|].
      exists nm, p, c. split; [done|]. split; [|done].
      cbn [heap]. rewrite lookup_insert_ne; [done|]. intros <-. by eapply Hfresh.
  - split.
    + apply foldl_teardown_never_done.
      eapply teardown_item_never_done; [exact Hc0|]. by rewrite Hdeps0.
    + erewrite teardown_item_faults; [apply foldl_teardown_fault | exact Hc0 |].
      by rewrite Hdeps0.
Qed.

(** X14: a file, opened under a name longer than 15 bytes, that ends after its
    last complete structure, with no ENDLIB record, and in which some structure
    references another one: read_rawcells does not return.  The loop that
    frees the pending names of an entity never advances, and its second turn
    frees the name its first turn freed. *)
Theorem read_rawcells_truncated_faults fuel fs filename prelude structures tail s name
    error_code sink :
  long_name filename →
  fs !! filename = Some (write_truncated prelude structures tail) →
  well_formed prelude structures →
  (length tail < 4)%nat →
  Z.of_nat (length structures) + 1 < 2 ^ 64 →
  s ∈ structures → Reference name ∈ sd_body s →
  is_done (read_rawcells fuel fs filename error_code sink) = false ∧
  read_rawcells (S (S fuel)) fs filename error_code sink = Fault.
Proof.
  intros Hlong Hfile (Hprelude & Hstructures & Hnodup) Htail Hcount Hs Href.
  unfold read_rawcells. rewrite Hfile.
  rewrite (read_loop_truncated prelude structures tail filename 0%nat Hlong Hprelude
             Hstructures Htail).
  cbn [res_bind].
  set (pos := Z.of_nat (length (concat (map write_element prelude)))).
  destruct (load_structures_ok filename 0%nat pos structures Hnodup)
    as [Hsize Hpresent Hcell Hinj].
  pose proof (load_structures_uses structures filename 0%nat pos (mkLoad ∅ ∅ 0%nat 0 None))
    as Huses.
  cbn [ld_uses] in Huses.
  set (l := load_structures filename 0%nat pos structures (mkLoad ∅ ∅ 0%nat 0 None)) in *.
  assert (Huses' : ld_uses l = Z.of_nat (length structures)).
  { destruct Huses as [->|[-> ->]]; [|done]. rewrite Z.add_0_l. apply Z.mod_small. lia. }
  rewrite Huses'. rewrite (Z.mod_small (Z.of_nat (length structures) + 1)) by lia.
  set (src := mkRawSource (write_truncated prelude structures tail)
                (Z.of_nat (length structures) + 1)).
  assert (Hlen : length (map_to_list (ld_result l)) = length structures).
  { rewrite <- Hsize. apply length_map_to_list. }
  destruct (teardown_fold_pending fuel (map_to_list (ld_result l))
              (mkWorld (ld_heap l) {[0%nat := src]}) src) as [Hnever Hfault].
  - by apply map_to_list_pointers.
  - intros nm p Hin. apply elem_of_map_to_list in Hin.
    destruct (Hcell nm p Hin) as (s' & off & _ & _ & Hp).
    eexists _, _. split; [exact Hp|]. split; reflexivity.
  - cbn [sources]. apply lookup_singleton_eq.
  - rewrite Hlen. cbn [src src_uses]. lia.
  - destruct (Hpresent s Hs) as (p & Hp).
    destruct (Hcell (sd_name s) p Hp) as (s' & off & Hs' & Hname & Hcp).
    assert (s' = s) as ->.
    { apply list_elem_of_lookup in Hs as (i & Hi), Hs' as (j & Hj).
      assert (i = j); [|by simplify_eq].
      eapply NoDup_lookup; [exact Hnodup| |]; rewrite list_lookup_fmap.
      - by rewrite Hi.
      - rewrite Hj. cbn. by rewrite Hname. }
    eexists _, _, _. split; [by apply elem_of_map_to_list|]. split; [exact Hcp|].
    cbn [loaded_cell rc_dependencies]. apply elem_of_references in Href.
    destruct (references (sd_body s)); [by apply elem_of_nil in Href|done].
  - split; [by apply is_done_bind|]. by rewrite Hfault.
Qed.

Lemma read_rawcells_truncated_faults_witness :
  is_done (read_rawcells 1000 truncated_fs file_ex (Some NoError) (Some [])) = false ∧
  read_rawcells 1002 truncated_fs file_ex (Some NoError) (Some []) = Fault.
Proof.
  apply (read_rawcells_truncated_faults 1000 truncated_fs file_ex prelude_ex
           [mkStructureDef timestamps (ascii "TOP") (sref_el (ascii "SUB") (20, 20))] []
           (mkStructureDef timestamps (ascii "TOP") (sref_el (ascii "SUB") (20, 20)))
           (ascii "SUB")).
  - exact file_ex_long.
  - unfold truncated_fs, write_truncated. rewrite lookup_singleton_eq.
    cbn [map concat]. by rewrite !app_nil_r.
  - split; [vm_compute; reflexivity|]. split; [vm_compute; reflexivity|].
    apply (bool_decide_unpack _). vm_compute. exact I.
  - cbn. lia.
  - cbn. lia.
  - left.
  - cbn. right. left.
Defined.
